(** * roboclaw_wrapper: command translation and validation layer

    A shallow embedding of [SGVHAK_Rover/roboclaw_wrapper.py].

    Reading conventions of the embedding:
    - Python 3 arithmetic: ints are unbounded and exact, [*] on two ints is
      an int, [/] is true division and always yields a float, [int(x)]
      truncates toward zero.
    - A Python float is an IEEE 754 binary64 number.  [NFloat q] and
      [PFloat q] are read as the literal [q]: they stand for the float
      nearest to the rational [q], which is [binary64 q].  Every float
      operation yields the exact result of its (rounded) operands, again
      read as a literal, so each operation rounds once, to nearest with ties
      to even, with gradual underflow.  The quotient of two ints is rounded
      once from the exact quotient, as CPython does.
    - The exponent range is not bounded above: magnitudes of 2^1024 and
      more, where Python yields [inf] or raises [OverflowError], [nan], and
      the sign of zero are outside the model.  Where a result depends on
      it, the hypotheses of a property keep the numbers in range ([finite],
      [in_range]).
    - Every error of the layer is a Python [ValueError]; the embedding names
      each raise site after the taxonomy of the design document
      ([InvalidIdentifier], [NotConnected], [OutOfRange], [ConnectionError],
      [DriverError]) and keeps the interpreter's own exceptions
      ([AttributeError], [IndexError], [ZeroDivisionError], [TypeError])
      apart.
    - A message built with [str.format] is kept as the template together
      with the formatted arguments.
    - The driver ([roboclaw.Roboclaw], [roboclaw_stub.Roboclaw_stub]) and the
      configuration loader are collaborators outside this file: a driver is
      an oracle answering each native call, and the loaded configuration is
      a record of the keys the wrapper reads. *)

From Stdlib Require Import ZArith QArith Qround Qabs Qpower Qreduction.
From Stdlib Require Import Lqa String List Bool Lia Floats.
Import ListNotations.

Local Open Scope string_scope.
Local Open Scope Z_scope.

(** ** Python values *)

#[warnings="-register-all"] Inductive pyval : Type :=
| PNone
| PBool (b : bool)
| PInt (z : Z)
| PFloat (q : Q)
| PStr (s : string)
| PTuple (items : list pyval)
| PList (items : list pyval).

(** Numbers handed to the arithmetic of the wrapper: [int] or [float]. *)
Inductive num : Type :=
| NInt (z : Z)
| NFloat (q : Q).

Definition of_num (x : num) : pyval :=
  match x with
  | NInt z => PInt z
  | NFloat q => PFloat q
  end.

(** ** Binary floating point *)

(** The nearest integer, a tie going to the even neighbour. *)
Definition round_half_even (q : Q) : Z :=
  let f := Qfloor q in
  match (q - inject_Z f ?= 1 # 2)%Q with
  | Lt => f
  | Gt => f + 1
  | Eq => if Z.even f then f else f + 1
  end.

Definition pow2 (k : Z) : Q := Qpower (2 # 1) k.

(** The exponent [k] with [2^k <= x < 2^(k+1)], for a positive [x]. *)
Definition Qlog2 (x : Q) : Z :=
  let k := Z.log2 (Qnum x) - Z.log2 (Zpos (Qden x)) in
  if Qle_bool (pow2 k) x then k else k - 1.

(** The exponent of the last place of the floats around [x]: 53 significant
    bits, and never below 2^-1074, the spacing of the subnormal numbers. *)
Definition binade (x : Q) : Z := Z.max (Qlog2 (Qabs x) - 52) (-1074).

(** The binary64 number nearest to [x], ties to even. *)
Definition binary64 (x : Q) : Q :=
  let r := Qred x in
  let e := binade r in
  (inject_Z (round_half_even (r / pow2 e)) * pow2 e)%Q.

(** The value of a number. *)
Definition to_Q (x : num) : Q :=
  match x with
  | NInt z => inject_Z z
  | NFloat q => binary64 q
  end.

(** [float(x)], the conversion an int undergoes when it meets a float. *)
Definition float_of (x : num) : Q :=
  match x with
  | NInt z => binary64 (inject_Z z)
  | NFloat q => binary64 q
  end.

(** Truncation toward zero of a rational: what [int()] does to a float. *)
Definition Qtrunc (q : Q) : Z := Z.quot (Qnum q) (Zpos (Qden q)).

(** [int(x)] *)
Definition py_int (x : num) : Z :=
  match x with
  | NInt z => z
  | NFloat q => Qtrunc (binary64 q)
  end.

(** [x * y] *)
Definition py_mul (x y : num) : num :=
  match x, y with
  | NInt a, NInt b => NInt (a * b)
  | _, _ => NFloat (float_of x * float_of y)
  end.

(** [x + y] *)
Definition py_add (x y : num) : num :=
  match x, y with
  | NInt a, NInt b => NInt (a + b)
  | _, _ => NFloat (float_of x + float_of y)
  end.

(** [-x] *)
Definition py_neg (x : num) : num :=
  match x with
  | NInt z => NInt (- z)
  | NFloat q => NFloat (- q)
  end.

(** [abs(x)] *)
Definition py_abs (x : num) : num :=
  match x with
  | NInt z => NInt (Z.abs z)
  | NFloat q => NFloat (Qabs q)
  end.

(** [x > y]; Python compares ints and floats by exact value. *)
Definition py_gt (x y : num) : bool :=
  match x, y with
  | NInt a, NInt b => b <? a
  | _, _ => negb (Qle_bool (to_Q x) (to_Q y))
  end.

(** [isinstance(v, int)] together with the integer the value stands for:
    [bool] is a subclass of [int], [True] is 1 and [False] is 0. *)
Definition int_value (v : pyval) : option Z :=
  match v with
  | PInt z => Some z
  | PBool b => Some (if b then 1 else 0)
  | _ => None
  end.

(** [v == n] for an integer literal [n]. *)
Definition py_eq_int (v : pyval) (n : Z) : bool :=
  match v with
  | PInt z => z =? n
  | PBool b => (if b then 1 else 0) =? n
  | PFloat q => Qeq_bool (binary64 q) (inject_Z n)
  | _ => false
  end.

(** ** Messages and errors *)

(** [template.format(args)] *)
Inductive message : Type :=
| Format (template : string) (args : list pyval).

Inductive error : Type :=
| InvalidIdentifier (msg : string)
| NotConnected (msg : string)
| OutOfRange (msg : message)
| ConnectionError (msg : message)
| DriverError (context : message) (raw : option (list pyval))
| AttributeError (attribute : string)
| IndexError
| ZeroDivisionError
| TypeError.

Definition result (A : Type) : Type := (error + A)%type.

(** [x / y], true division. *)
Definition py_truediv (x y : num) : result num :=
  if Qeq_bool (to_Q y) 0 then inl ZeroDivisionError
  else
    match x, y with
    | NInt a, NInt b => inr (NFloat (inject_Z a / inject_Z b))
    | _, _ => inr (NFloat (float_of x / float_of y))
    end.

(** ** Result adapters *)

Definition default_getter : message := Format "RoboClaw API Getter" [].
Definition default_setter : message := Format "RoboClaw API Setter" [].

(** [apiget(result_tuple, errormessage)] *)
Definition apiget (result_tuple : list pyval) (errormessage : message)
  : result pyval :=
  match result_tuple with
  | [] => inl IndexError
  | status :: rest =>
      if py_eq_int status 0 then
        inl (DriverError errormessage (Some result_tuple))
      else
        match rest with
        | [x] => inr x
        | _ => inr (PTuple rest)
        end
  end.

(** [apiset(result, errormessage)] *)
Definition apiset (res : bool) (errormessage : message) : result unit :=
  if negb res then inl (DriverError errormessage None) else inr tt.

(** ** Identifier validation *)

(** [isinstance(id, (tuple, list))] together with the elements. *)
Definition sequence_items (v : pyval) : option (list pyval) :=
  match v with
  | PTuple items => Some items
  | PList items => Some items
  | _ => None
  end.

(** The three components bound by [address, motor, inverted = check_id(id)].
    An accepted address can only be a genuine [int] (no [bool] reaches 128)
    and an accepted inversion flag only a [bool]; the motor keeps the value
    it was given. *)
Definition motor_id : Type := (Z * pyval * bool)%type.

Definition check_id (id : pyval) : result motor_id :=
  match sequence_items id with
  | None => inl (InvalidIdentifier "RoboClaw motor identifier must be a tuple")
  | Some items =>
      match items with
      | [id0; id1; id2] =>
          match int_value id0 with
          | None => inl (InvalidIdentifier "RoboClaw address must be an integer")
          | Some address =>
              if (address <? 128) || (135 <? address) then
                inl (InvalidIdentifier
                       "RoboClaw address must be in the range of 128 to 135 (inclusive)")
              else
                match int_value id1 with
                | None =>
                    inl (InvalidIdentifier "RoboClaw motor number must be an integer")
                | Some motor =>
                    if negb (motor =? 1) && negb (motor =? 2) then
                      inl (InvalidIdentifier "RoboClaw motor number must be 1 or 2")
                    else
                      match id2 with
                      | PBool inverted => inr (address, id1, inverted)
                      | _ => inl (InvalidIdentifier "Inverted status must be a boolean")
                      end
                end
          end
      | _ =>
          inl (InvalidIdentifier
                 "RoboClaw motor identifier must have three elements: address, motor number, and whether it is inverted")
      end
  end.

(** ** The driver collaborator *)

(** For the 'buffered' parameter into RoboClaw API. *)
Definition immediate_execution : Z := 1.

(** The native calls the wrapper issues. *)
Inductive call : Type :=
| Open
| ReadVersion (address : Z)
| ForwardBackwardM1 (address level : Z)
| ForwardBackwardM2 (address level : Z)
| SetM1MaxCurrent (address : Z) (current : num)
| SetM2MaxCurrent (address : Z) (current : num)
| SetM1VelocityPID (address : Z) (p i d qpps : num)
| SetM2VelocityPID (address : Z) (p i d qpps : num)
| SpeedAccelM1 (address : Z) (accel : num) (speed : Z)
| SpeedAccelM2 (address : Z) (accel : num) (speed : Z)
| SetM1PositionPID (address : Z) (p i d maxi deadzone lo hi : num)
| SetM2PositionPID (address : Z) (p i d maxi deadzone lo hi : num)
| SpeedAccelDeccelPositionM1 (address : Z) (accel speed deccel : num)
    (position buffer : Z)
| SpeedAccelDeccelPositionM2 (address : Z) (accel speed deccel : num)
    (position buffer : Z)
| SetEncM1 (address cnt : Z)
| SetEncM2 (address cnt : Z)
| ReadMainBatteryVoltage (address : Z).

(** A driver handle answers a call given the calls issued before it: a
    write with a boolean, a read with a tuple led by its status flag. *)
Record Roboclaw : Type := {
  write_reply : list call -> call -> bool;
  read_reply : list call -> call -> list pyval
}.

(** ** The configuration collaborator *)

Record velocity_pid : Type := {
  vel_p : num; vel_i : num; vel_d : num; vel_qpps : num
}.

Record position_pid : Type := {
  pos_p : num; pos_i : num; pos_d : num; pos_maxi : num; pos_deadzone : num
}.

Record hardstop_t : Type := {
  hardstop_count : num; hardstop_angle : num
}.

(** [allparams['velocity']] *)
Record velocity_profile : Type := {
  v_maxCurrent : num;
  v_velocity : velocity_pid;
  v_acceleration : num;
  v_maxVelocity : num
}.

(** [allparams['angle']] *)
Record angle_profile : Type := {
  a_maxCurrent : num;
  a_velocity : velocity_pid;
  a_position : position_pid;
  a_hardstop : hardstop_t;
  a_accel : num;
  a_speed : num;
  a_decel : num
}.

(** [allparams['connect']] *)
Record connect_params : Type := {
  port : string; baudrate : num; timeout : num; retries : num
}.

Record allparams_t : Type := {
  cfg_connect : connect_params;
  cfg_velocity : velocity_profile;
  cfg_angle : angle_profile
}.

(** What [connect] reaches outside the class: the loaded configuration and
    the two driver constructors. *)
Record collaborators : Type := {
  configuration_load : allparams_t;
  Roboclaw_stub : Roboclaw;
  Roboclaw_new : string -> num -> num -> num -> Roboclaw
}.

(** ** The wrapper object and its monad *)

(** The attributes of a [roboclaw_wrapper] instance.  [roboclaw] always
    exists and holds [None] until a handle is stored; [velocityparams] and
    [angleparams] do not exist until [connect] assigns them, and [None]
    stands for the missing attribute here. *)
Record roboclaw_wrapper : Type := {
  roboclaw : option Roboclaw;
  velocityparams : option velocity_profile;
  angleparams : option angle_profile
}.

(** The wrapper together with the calls that reached a driver, oldest first. *)
Record world : Type := {
  self : roboclaw_wrapper;
  issued : list call
}.

Definition M (A : Type) : Type := world -> result A * world.

Definition ret {A : Type} (a : A) : M A := fun w => (inr a, w).

Definition raise {A : Type} (e : error) : M A := fun w => (inl e, w).

Definition bind {A B : Type} (m : M A) (k : A -> M B) : M B :=
  fun w =>
    match m w with
    | (inl e, w') => (inl e, w')
    | (inr a, w') => k a w'
    end.

Definition lift {A : Type} (r : result A) : M A := fun w => (r, w).

Declare Scope wrapper_scope.
Delimit Scope wrapper_scope with wrapper.
Notation "x <- m ;; k" := (bind m (fun x => k))
  (at level 61, m at next level, right associativity) : wrapper_scope.
Notation "' pat <- m ;; k" := (bind m (fun x => match x with pat => k end))
  (at level 61, pat pattern, m at next level, right associativity)
  : wrapper_scope.
Notation "m ;; k" := (bind m (fun _ => k))
  (at level 61, right associativity) : wrapper_scope.
Local Open Scope wrapper_scope.

(** [roboclaw_wrapper()] *)
Definition __init__ : roboclaw_wrapper :=
  {| roboclaw := None; velocityparams := None; angleparams := None |}.

Definition get_velocityparams : M velocity_profile :=
  fun w =>
    match velocityparams (self w) with
    | Some p => (inr p, w)
    | None => (inl (AttributeError "velocityparams"), w)
    end.

Definition get_angleparams : M angle_profile :=
  fun w =>
    match angleparams (self w) with
    | Some p => (inr p, w)
    | None => (inl (AttributeError "angleparams"), w)
    end.

(** [self.roboclaw.<method>]: a method looked up on [None] is an
    [AttributeError]. *)
Definition get_roboclaw : M Roboclaw :=
  fun w =>
    match roboclaw (self w) with
    | Some rc => (inr rc, w)
    | None => (inl (AttributeError "roboclaw"), w)
    end.

Definition set_velocityparams (p : velocity_profile) : M unit :=
  fun w =>
    (inr tt,
     {| self := {| roboclaw := roboclaw (self w);
                   velocityparams := Some p;
                   angleparams := angleparams (self w) |};
        issued := issued w |}).

Definition set_angleparams (p : angle_profile) : M unit :=
  fun w =>
    (inr tt,
     {| self := {| roboclaw := roboclaw (self w);
                   velocityparams := velocityparams (self w);
                   angleparams := Some p |};
        issued := issued w |}).

Definition set_roboclaw (rc : Roboclaw) : M unit :=
  fun w =>
    (inr tt,
     {| self := {| roboclaw := Some rc;
                   velocityparams := velocityparams (self w);
                   angleparams := angleparams (self w) |};
        issued := issued w |}).

(** A write call on a handle: the call is logged and the driver's boolean
    comes back. *)
Definition write (rc : Roboclaw) (c : call) : M bool :=
  fun w =>
    (inr (write_reply rc (issued w) c),
     {| self := self w; issued := issued w ++ [c] |}).

(** A read call on a handle. *)
Definition read (rc : Roboclaw) (c : call) : M (list pyval) :=
  fun w =>
    (inr (read_reply rc (issued w) c),
     {| self := self w; issued := issued w ++ [c] |}).

(** ** The operations of the class *)

(** [check_roboclaw] *)
Definition check_roboclaw : M unit :=
  fun w =>
    match roboclaw (self w) with
    | None => (inl (NotConnected "RoboClaw not yet connected"), w)
    | Some _ => (inr tt, w)
    end.

(** [connect] *)
Definition connect (env : collaborators) : M unit :=
  let allparams := configuration_load env in
  set_velocityparams (cfg_velocity allparams) ;;
  set_angleparams (cfg_angle allparams) ;;
  let portname := port (cfg_connect allparams) in
  if String.eqb portname "TEST" then
    set_roboclaw (Roboclaw_stub env)
  else
    let baudrate := baudrate (cfg_connect allparams) in
    let timeout := timeout (cfg_connect allparams) in
    let retries := retries (cfg_connect allparams) in
    let newrc := Roboclaw_new env portname baudrate timeout retries in
    opened <- write newrc Open ;;
    if opened then set_roboclaw newrc
    else
      raise (ConnectionError
               (Format "Could not connect to RoboClaw. {} @ {}"
                       [PStr portname; of_num baudrate])).

(** [version] *)
Definition version (id : pyval) : M pyval :=
  '(address, motor, inverted) <- lift (check_id id) ;;
  check_roboclaw ;;
  rc <- get_roboclaw ;;
  result_tuple <- read rc (ReadVersion address) ;;
  lift (apiget result_tuple
          (Format "RoboClaw ReadVersion @ {}" [PInt address])).

(** [power_percent] *)
Definition power_percent (id : pyval) (percentage : num) : M unit :=
  '(address, motor, inverted) <- lift (check_id id) ;;
  check_roboclaw ;;
  let pct := py_int percentage in
  if 100 <? Z.abs pct then
    raise (OutOfRange
             (Format "Motor power percentage {0} outside valid range from 0 to 100."
                     [PInt pct]))
  else
    quotient <- lift (py_truediv (py_mul (NInt pct) (NInt 63)) (NInt 100)) ;;
    let level := py_int (py_add (NInt 64) quotient) in
    let error :=
      Format "RoboClaw M{}@{} power at {} representing {} percent"
             [motor; PInt address; PInt level; PInt pct] in
    rc <- get_roboclaw ;;
    if py_eq_int motor 1 then
      res <- write rc (ForwardBackwardM1 address level) ;;
      lift (apiset res error)
    else
      res <- write rc (ForwardBackwardM2 address level) ;;
      lift (apiset res error).

(** [set_max_current]; the message built in [error] is not handed to
    [apiset]. *)
Definition set_max_current (id : pyval) (current : num) : M unit :=
  '(address, motor, inverted) <- lift (check_id id) ;;
  check_roboclaw ;;
  let error :=
    Format "Restricting RoboClaw M{}@{} to {} * 10 mA"
           [motor; PInt address; of_num current] in
  rc <- get_roboclaw ;;
  if py_eq_int motor 1 then
    res <- write rc (SetM1MaxCurrent address current) ;;
    lift (apiset res default_setter)
  else
    res <- write rc (SetM2MaxCurrent address current) ;;
    lift (apiset res default_setter).

(** [set_velocity_pid] *)
Definition set_velocity_pid (id : pyval) (params : velocity_pid) : M unit :=
  '(address, motor, inverted) <- lift (check_id id) ;;
  check_roboclaw ;;
  let p := vel_p params in
  let i := vel_i params in
  let d := vel_d params in
  let qpps := vel_qpps params in
  let error :=
    Format "RoboClaw M{}@{} Velocity P{} I{} D{} QPPS{}"
           [motor; PInt address; of_num p; of_num i; of_num d; of_num qpps] in
  rc <- get_roboclaw ;;
  if py_eq_int motor 1 then
    res <- write rc (SetM1VelocityPID address p i d qpps) ;;
    lift (apiset res error)
  else
    res <- write rc (SetM2VelocityPID address p i d qpps) ;;
    lift (apiset res error).

(** [init_velocity]; each argument is read off [self.velocityparams] before
    the call it is passed to. *)
Definition init_velocity (id : pyval) : M unit :=
  vp <- get_velocityparams ;;
  set_max_current id (v_maxCurrent vp) ;;
  vp <- get_velocityparams ;;
  set_velocity_pid id (v_velocity vp).

(** [velocity] *)
Definition velocity (id : pyval) (pct_velocity : num) : M unit :=
  '(address, motor, inverted) <- lift (check_id id) ;;
  check_roboclaw ;;
  if 100 <? Z.abs (py_int pct_velocity) then
    raise (OutOfRange
             (Format "Velocity percentage {} exceeds maximum of 100"
                     [of_num pct_velocity]))
  else
    vp <- get_velocityparams ;;
    quotient <- lift (py_truediv (py_mul (v_maxVelocity vp) pct_velocity)
                                 (NInt 100)) ;;
    let qpps := py_int quotient in
    let qpps := if inverted then - qpps else qpps in
    vp <- get_velocityparams ;;
    let acceleration := v_acceleration vp in
    let error :=
      Format "Velocity {} acceleration {} on RoboClaw M{}@{}"
             [PInt qpps; of_num acceleration; motor; PInt address] in
    rc <- get_roboclaw ;;
    if py_eq_int motor 1 then
      res <- write rc (SpeedAccelM1 address acceleration qpps) ;;
      lift (apiset res error)
    else
      res <- write rc (SpeedAccelM2 address acceleration qpps) ;;
      lift (apiset res error).

(** [set_position_pid] *)
Definition set_position_pid (id : pyval) (params : position_pid) (limit : num)
  : M unit :=
  '(address, motor, inverted) <- lift (check_id id) ;;
  check_roboclaw ;;
  let p := pos_p params in
  let i := pos_i params in
  let d := pos_d params in
  let maxi := pos_maxi params in
  let deadzone := pos_deadzone params in
  let error :=
    Format "RoboClaw M{}@{} Position P{} I{} D{} MaxI{} Deadzone{} from {} to {}"
           [motor; PInt address; of_num p; of_num i; of_num d; of_num maxi;
            of_num deadzone; of_num (py_neg limit); of_num limit] in
  rc <- get_roboclaw ;;
  if py_eq_int motor 1 then
    res <- write rc (SetM1PositionPID address p i d maxi deadzone
                                      (py_neg limit) limit) ;;
    lift (apiset res error)
  else
    res <- write rc (SetM2PositionPID address p i d maxi deadzone
                                      (py_neg limit) limit) ;;
    lift (apiset res error).

(** [init_angle] *)
Definition init_angle (id : pyval) : M unit :=
  p <- get_angleparams ;;
  set_max_current id (a_maxCurrent p) ;;
  set_velocity_pid id (a_velocity p) ;;
  set_position_pid id (a_position p) (hardstop_count (a_hardstop p)).

(** [maxangle]; the identifier is not looked at. *)
Definition maxangle (id : pyval) : M num :=
  ap <- get_angleparams ;;
  ret (hardstop_angle (a_hardstop ap)).

(** [angle] *)
Definition angle (id : pyval) (angle : num) : M unit :=
  '(address, motor, inverted) <- lift (check_id id) ;;
  check_roboclaw ;;
  ap <- get_angleparams ;;
  let hardstopangle := hardstop_angle (a_hardstop ap) in
  ap <- get_angleparams ;;
  let hardstopcount := hardstop_count (a_hardstop ap) in
  if py_gt (py_abs angle) hardstopangle then
    raise (OutOfRange
             (Format "Steering angle {} exceeds maximum of {} degrees off center"
                     [of_num angle; of_num hardstopangle]))
  else
    quotient <- lift (py_truediv (py_mul hardstopcount angle) hardstopangle) ;;
    let position := py_int quotient in
    let position := if inverted then - position else position in
    ap <- get_angleparams ;;
    let acceleration := a_accel ap in
    let speed := a_speed ap in
    let deceleration := a_decel ap in
    let error :=
      Format "Position {} via {}/{}/{} on RoboClaw M{}@{}"
             [PInt position; of_num acceleration; of_num speed;
              of_num deceleration; motor; PInt address] in
    rc <- get_roboclaw ;;
    if py_eq_int motor 1 then
      res <- write rc (SpeedAccelDeccelPositionM1 address acceleration speed
                         deceleration position immediate_execution) ;;
      lift (apiset res error)
    else
      res <- write rc (SpeedAccelDeccelPositionM2 address acceleration speed
                         deceleration position immediate_execution) ;;
      lift (apiset res error).

(** [steer_setzero] *)
Definition steer_setzero (id : pyval) : M unit :=
  '(address, motor, inverted) <- lift (check_id id) ;;
  check_roboclaw ;;
  let error :=
    Format "Reset encoder on RoboClaw M{}@{}" [motor; PInt address] in
  rc <- get_roboclaw ;;
  if py_eq_int motor 1 then
    res <- write rc (SetEncM1 address 0) ;;
    lift (apiset res error)
  else
    res <- write rc (SetEncM2 address 0) ;;
    lift (apiset res error).

(** [voltage10 / 10.0]; an integer reading is divided as it is: every int
    up to 2^53 in magnitude converts to a float without rounding. *)
Definition py_div_10 (v : pyval) : result pyval :=
  match v with
  | PInt z => inr (PFloat (inject_Z z / inject_Z 10))
  | PBool b => inr (PFloat (inject_Z (if b then 1 else 0) / inject_Z 10))
  | PFloat q => inr (PFloat (binary64 q / inject_Z 10))
  | _ => inl TypeError
  end.

(** [input_voltage]; the message built in [error] is not handed to
    [apiget]. *)
Definition input_voltage (id : pyval) : M pyval :=
  '(address, motor, inverted) <- lift (check_id id) ;;
  check_roboclaw ;;
  let error := Format "Read voltage of RoboClaw @{}" [PInt address] in
  rc <- get_roboclaw ;;
  result_tuple <- read rc (ReadMainBatteryVoltage address) ;;
  voltage10 <- lift (apiget result_tuple default_getter) ;;
  lift (py_div_10 voltage10).

(** ** Rounding as the design document words it *)

(** [round] is [round_half_even].  [round(64 + percentage*63/100)] *)
Definition spec_power_level (percentage : Z) : Z :=
  round_half_even
    (inject_Z 64 + inject_Z percentage * inject_Z 63 / inject_Z 100)%Q.

(** [round(maxVelocity * pct_velocity / 100)] *)
Definition spec_qpps (maxVelocity pct_velocity : num) : Z :=
  round_half_even (to_Q maxVelocity * to_Q pct_velocity / inject_Z 100)%Q.

(** [round(hardstop_count * degrees / hardstop_angle)] *)
Definition spec_position (count degrees hardstopangle : num) : Z :=
  round_half_even (to_Q count * to_Q degrees / to_Q hardstopangle)%Q.

(** ** Machine floats, for comparison *)

(** The rational a finite machine float stands for. *)
Definition float_value (f : float) : option Q :=
  match Prim2SF f with
  | S754_zero _ => Some 0%Q
  | S754_finite s m e =>
      Some ((if s then - (1) else 1) * inject_Z (Zpos m) * pow2 e)%Q
  | _ => None
  end.

(** [float(z)] on the machine, for |z| < 2^63. *)
Definition machine_int (z : Z) : float :=
  if z <? 0 then PrimFloat.opp (PrimFloat.of_uint63 (Uint63.of_Z (- z)))
  else PrimFloat.of_uint63 (Uint63.of_Z z).

(** The machine float a decimal literal is read as: the correctly rounded
    quotient of numerator and denominator. *)
Definition machine_literal (x : Q) : float :=
  PrimFloat.div (machine_int (Qnum x)) (machine_int (Zpos (Qden x))).

(** [a * x / b] on machine floats. *)
Definition machine_scaled (a x b : Q) : option Q :=
  float_value
    (PrimFloat.div (PrimFloat.mul (machine_literal a) (machine_literal x))
                   (machine_literal b)).

(** [a * x / b] with [binary64]. *)
Definition binary64_scaled (a x b : Q) : Q :=
  binary64 (binary64 (binary64 a * binary64 x) / binary64 b).

(** [2^k / d] on machine floats and with [binary64], to reach the
    subnormal range. *)
Definition machine_tiny (k d : Z) : option Q :=
  float_value (PrimFloat.div (Z.ldexp PrimFloat.one k) (machine_int d)).

Definition binary64_tiny (k d : Z) : Q := binary64 (pow2 k / inject_Z d).

Definition same_value (m : option Q) (q : Q) : bool :=
  match m with
  | Some v => Qeq_bool v q
  | None => false
  end.

(** ** Sample collaborators *)

Module Sample.

(** A driver on which every call succeeds; reads answer [(1, 123)]. *)
Definition obliging : Roboclaw :=
  {| write_reply := fun _ _ => true;
     read_reply := fun _ _ => [PInt 1; PInt 123] |}.

(** A driver on which every call fails; reads answer [(0, 0)]. *)
Definition refusing : Roboclaw :=
  {| write_reply := fun _ _ => false;
     read_reply := fun _ _ => [PInt 0; PInt 0] |}.

(** A driver that refuses the velocity-PID registers and accepts every
    other write. *)
Definition no_velocity_pid : Roboclaw :=
  {| write_reply := fun _ c =>
       match c with
       | SetM1VelocityPID _ _ _ _ _ | SetM2VelocityPID _ _ _ _ _ => false
       | _ => true
       end;
     read_reply := fun _ _ => [PInt 1; PInt 123] |}.

Definition pid : velocity_pid :=
  {| vel_p := NInt 3000; vel_i := NInt 500; vel_d := NInt 0;
     vel_qpps := NInt 1800 |}.

Definition velocity_cfg : velocity_profile :=
  {| v_maxCurrent := NInt 300; v_velocity := pid;
     v_acceleration := NInt 2400; v_maxVelocity := NInt 1234 |}.

Definition angle_cfg : angle_profile :=
  {| a_maxCurrent := NInt 200; a_velocity := pid;
     a_position :=
       {| pos_p := NInt 2000; pos_i := NInt 4; pos_d := NInt 100;
          pos_maxi := NInt 50; pos_deadzone := NInt 5 |};
     a_hardstop := {| hardstop_count := NInt 1000;
                      hardstop_angle := NInt 45 |};
     a_accel := NInt 600; a_speed := NInt 900; a_decel := NInt 700 |}.

Definition config (portname : string) : allparams_t :=
  {| cfg_connect := {| port := portname; baudrate := NInt 115200;
                       timeout := NFloat (1 # 100); retries := NInt 3 |};
     cfg_velocity := velocity_cfg;
     cfg_angle := angle_cfg |}.

(** A wrapper after a successful [connect] to the given driver. *)
Definition connected (rc : Roboclaw) : world :=
  {| self := {| roboclaw := Some rc;
                velocityparams := Some velocity_cfg;
                angleparams := Some angle_cfg |};
     issued := [] |}.

(** A velocity profile and a connected wrapper with maxVelocity 1000. *)
Definition thousand_cfg : velocity_profile :=
  {| v_maxCurrent := NInt 300; v_velocity := pid;
     v_acceleration := NInt 2400; v_maxVelocity := NInt 1000 |}.

Definition thousand : world :=
  {| self := {| roboclaw := Some obliging;
                velocityparams := Some thousand_cfg;
                angleparams := Some angle_cfg |};
     issued := [] |}.

(** A connected wrapper whose hardstop angle is zero. *)
Definition zero_hardstop : world :=
  {| self := {| roboclaw := Some obliging;
                velocityparams := Some velocity_cfg;
                angleparams :=
                  Some {| a_maxCurrent := NInt 200; a_velocity := pid;
                          a_position := a_position angle_cfg;
                          a_hardstop := {| hardstop_count := NInt 1000;
                                           hardstop_angle := NInt 0 |};
                          a_accel := NInt 600; a_speed := NInt 900;
                          a_decel := NInt 700 |} |};
     issued := [] |}.

(** A wrapper on which only the constructor has run. *)
Definition fresh : world := {| self := __init__; issued := [] |}.

(** Collaborators whose serial port does not open. *)
Definition unplugged : collaborators :=
  {| configuration_load := config "/dev/ttyACM0";
     Roboclaw_stub := obliging;
     Roboclaw_new := fun _ _ _ _ => refusing |}.

(** The wrapper such a failed [connect] leaves behind. *)
Definition stranded : world :=
  {| self := {| roboclaw := None;
                velocityparams := Some velocity_cfg;
                angleparams := Some angle_cfg |};
     issued := [Open] |}.

Definition first_motor : pyval := PTuple [PInt 128; PInt 1; PBool false].
Definition second_motor_inverted : pyval :=
  PTuple [PInt 129; PInt 2; PBool true].

End Sample.

(** The world once the given calls, in order, have reached the driver too. *)
Definition after (w : world) (calls : list call) : world :=
  {| self := self w; issued := issued w ++ calls |}.

(** ** Predicates used in the statements *)

(** The identifiers the validator is meant to accept, with the triple they
    normalize to: a tuple or list of exactly three fields, an [int] address
    from 128 to 135, a motor number that is an [int] of value 1 or 2 (for
    Python this includes [True], an [int] equal to 1), and a [bool]
    inversion flag. *)
Definition well_formed_id (id : pyval) (t : motor_id) : Prop :=
  let '(address, motor, inverted) := t in
  (id = PTuple [PInt address; motor; PBool inverted] \/
   id = PList [PInt address; motor; PBool inverted]) /\
  128 <= address <= 135 /\
  (exists channel, int_value motor = Some channel /\
                   (channel = 1 \/ channel = 2)).

(** The leading element of a read result signals failure. *)
Definition failure_flag (status : pyval) : Prop := py_eq_int status 0 = true.

(** The call of the pair [m1], [m2] that the test [motor == 1] selects. *)
Definition by_channel (motor : pyval) (m1 m2 : call) : call :=
  if py_eq_int motor 1 then m1 else m2.

(** What [apiset] makes of the driver's answer to a write call. *)
Definition write_outcome (rc : Roboclaw) (w : world) (c : call)
    (res : result unit) : Prop :=
  (write_reply rc (issued w) c = true -> res = inr tt) /\
  (write_reply rc (issued w) c = false ->
   exists context, res = inl (DriverError context None)).

(** The rational rounds to a finite float: no overflow to [inf]. *)
Definition finite (x : Q) : Prop := (Qabs (binary64 x) < pow2 1024)%Q.

(** The numbers whose arithmetic the embedding covers: an int that converts
    to a float without rounding (below 2^53 in magnitude), a float literal
    that is finite. *)
Definition in_range (x : num) : Prop :=
  match x with
  | NInt z => Z.abs z < 2 ^ 53
  | NFloat q => finite q
  end.

(** ** Predicates for the further properties *)

(** An operation leaves the attributes of the wrapper as they are and only
    appends to the calls that reached the driver, at most [n] of them. *)
Definition footprint {A : Type} (n : nat) (m : M A) : Prop :=
  forall w,
    self (snd (m w)) = self w /\
    exists calls, issued (snd (m w)) = (issued w ++ calls)%list /\
                  (length calls <= n)%nat.

(** The errors raised by the wrapper's own checks and lookups, as opposed to
    those that report a driver's answer. *)
Definition raised_before_driver (e : error) : bool :=
  match e with
  | InvalidIdentifier _ | NotConnected _ | OutOfRange _
  | AttributeError _ | ZeroDivisionError => true
  | ConnectionError _ | DriverError _ _ | IndexError | TypeError => false
  end.

(** Whenever the operation fails with one of those errors, nothing has
    changed: no call was issued. *)
Definition fails_clean {A : Type} (m : M A) : Prop :=
  forall w e,
    fst (m w) = inl e -> raised_before_driver e = true -> snd (m w) = w.

(** The outcome of an operation stopped by [check_roboclaw]. *)
Definition refused {A : Type} (w : world) : result A * world :=
  (inl (NotConnected "RoboClaw not yet connected"), w).

(** [tuple(id)], the value [check_id] returns, rebuilt from its three
    components. *)
Definition id_tuple (t : motor_id) : pyval :=
  let '(address, motor, inverted) := t in
  PTuple [PInt address; motor; PBool inverted].

(** The wrapper once [connect] has stored the two profiles of the loaded
    configuration, with the given handle attribute and call log. *)
Definition loaded (env : collaborators) (handle : option Roboclaw)
    (log : list call) : world :=
  {| self := {| roboclaw := handle;
                velocityparams := Some (cfg_velocity (configuration_load env));
                angleparams := Some (cfg_angle (configuration_load env)) |};
     issued := log |}.

(** The handle [connect] builds for a real port. *)
Definition new_handle (env : collaborators) : Roboclaw :=
  let c := cfg_connect (configuration_load env) in
  Roboclaw_new env (port c) (baudrate c) (timeout c) (retries c).

(** * Properties *)

(** ** Truncation toward zero *)

Lemma Qtrunc_nonneg (q : Q) : 0 <= Qnum q -> Qtrunc q = Qfloor q.
Proof.
  destruct q as [n d]; unfold Qtrunc, Qfloor; cbn [Qnum Qden]; intros Hn.
  apply Z.quot_div_nonneg; lia.
Qed.

Lemma Qtrunc_nonpos (q : Q) : Qnum q <= 0 -> Qtrunc q = Qceiling q.
Proof.
  destruct q as [n d]; unfold Qtrunc, Qceiling, Qfloor, Qopp.
  cbn [Qnum Qden]; intros Hn.
  rewrite <- (Z.quot_div_nonneg (- n) (Zpos d)) by lia.
  rewrite Z.quot_opp_l by lia. lia.
Qed.

Lemma Qtrunc_comp (q r : Q) : (q == r)%Q -> Qtrunc q = Qtrunc r.
Proof.
  intros E.
  destruct (Z.le_gt_cases 0 (Qnum q)) as [Hq | Hq].
  - assert (Hr : 0 <= Qnum r).
    { unfold Qeq in E. nia. }
    rewrite !Qtrunc_nonneg by assumption. now apply Qfloor_comp.
  - assert (Hr : Qnum r <= 0).
    { unfold Qeq in E. nia. }
    rewrite !Qtrunc_nonpos by lia. now apply Qceiling_comp.
Qed.

(** [int()] never moves a number away from zero. *)
Lemma Qtrunc_abs_le (q : Q) : (inject_Z (Z.abs (Qtrunc q)) <= Qabs q)%Q.
Proof.
  destruct q as [n d]; unfold Qtrunc, Qabs, Qle; cbn [Qnum Qden].
  rewrite Z.mul_1_r.
  rewrite <- (Z.abs_eq (Zpos d)) at 2 by lia.
  rewrite <- Z.quot_abs by lia.
  rewrite Z.mul_comm. rewrite (Z.abs_eq (Zpos d)) by lia.
  apply Z.mul_quot_le; lia.
Qed.

Lemma Qtrunc_opp (q : Q) : Qtrunc (- q) = - Qtrunc q.
Proof.
  destruct q as [n d]. unfold Qtrunc, Qopp. cbn [Qnum Qden].
  apply Z.quot_opp_l. discriminate.
Qed.

(** ** Rounding to binary64 *)

Lemma pow2_pos (k : Z) : (0 < pow2 k)%Q.
Proof. apply Qpower_0_lt. reflexivity. Qed.

Lemma pow2_add (a b : Z) : (pow2 (a + b) == pow2 a * pow2 b)%Q.
Proof. apply Qpower_plus. discriminate. Qed.

Lemma pow2_opp (a : Z) : (pow2 (- a) == / pow2 a)%Q.
Proof. apply Qpower_opp. Qed.

Lemma pow2_Z (n : Z) : 0 <= n -> (pow2 n == inject_Z (2 ^ n))%Q.
Proof. intros H. unfold pow2. now rewrite (Zpower_Qpower 2 n H). Qed.

Lemma pow2_lt_inv (a b : Z) : (pow2 a < pow2 b)%Q -> a < b.
Proof. intros H. apply (Qpower_lt_compat_l_inv (2 # 1)); [exact H | reflexivity]. Qed.

Lemma pow2_le (a b : Z) : a <= b -> (pow2 a <= pow2 b)%Q.
Proof. intros H. apply Qpower_le_compat_l; [exact H | discriminate]. Qed.

(** 2^(floor log2) is below the number. *)
Lemma Qlog2_lower (x : Q) : (0 < x)%Q -> (pow2 (Qlog2 x) <= x)%Q.
Proof.
  intros Hx. unfold Qlog2.
  set (k := Z.log2 (Qnum x) - Z.log2 (Zpos (Qden x))).
  destruct (Qle_bool (pow2 k) x) eqn:E; [now apply Qle_bool_iff|].
  destruct x as [n d]. cbn [Qnum Qden] in k.
  assert (Hn : 0 < n) by (unfold Qlt in Hx; cbn in Hx; lia).
  pose proof (Z.log2_spec n Hn) as [Hlo _].
  assert (Hd : 0 < Zpos d) by lia.
  pose proof (Z.log2_spec (Zpos d) Hd) as [_ Hhi].
  pose proof (Z.log2_nonneg n) as Hln.
  pose proof (Z.log2_nonneg (Zpos d)) as Hld.
  replace (k - 1) with (Z.log2 n + - (Z.log2 (Zpos d) + 1)) by (unfold k; lia).
  rewrite pow2_add, pow2_opp, !pow2_Z by lia.
  rewrite (Qmake_Qdiv n d).
  apply Qmult_le_compat_nonneg.
  - split; [|now rewrite <- Zle_Qle].
    rewrite <- (Zle_Qle 0). apply Z.pow_nonneg. lia.
  - split.
    + apply Qlt_le_weak, Qinv_lt_0_compat. rewrite <- (Zlt_Qlt 0). lia.
    + apply Qle_shift_inv_l; [now rewrite <- (Zlt_Qlt 0)|].
      rewrite Qmult_comm. apply Qle_shift_div_r.
      * rewrite <- (Zlt_Qlt 0). lia.
      * rewrite Qmult_1_l. rewrite <- Zle_Qle. lia.
Qed.

Lemma round_half_even_error (y : Q) :
  (Qabs (inject_Z (round_half_even y) - y) <= 1 # 2)%Q.
Proof.
  unfold round_half_even.
  pose proof (Qfloor_le y) as Hlo. pose proof (Qlt_floor y) as Hhi.
  rewrite inject_Z_plus in Hhi. change (inject_Z 1) with 1%Q in Hhi.
  apply Qabs_Qle_condition.
  destruct (Qcompare_spec (y - inject_Z (Qfloor y)) (1 # 2)) as [E | L | G].
  - destruct (Z.even (Qfloor y)); rewrite ?inject_Z_plus;
      change (inject_Z 1) with 1%Q; split; lra.
  - split; lra.
  - rewrite inject_Z_plus. change (inject_Z 1) with 1%Q. split; lra.
Qed.

Lemma round_half_even_Z (y : Q) (j : Z) : (y == inject_Z j)%Q -> round_half_even y = j.
Proof.
  intros E. unfold round_half_even.
  assert (F : Qfloor y = j) by (rewrite E; apply Qfloor_Z).
  rewrite F.
  destruct (Qcompare_spec (y - inject_Z j) (1 # 2)) as [H | H | H];
    try reflexivity; exfalso; rewrite E in H; lra.
Qed.

Lemma round_half_even_comp (y z : Q) :
  (y == z)%Q -> round_half_even y = round_half_even z.
Proof.
  intros E. unfold round_half_even. rewrite (Qfloor_comp _ _ E).
  assert (C : (y - inject_Z (Qfloor z) ?= 1 # 2)%Q
              = (z - inject_Z (Qfloor z) ?= 1 # 2)%Q) by now rewrite E.
  now rewrite C.
Qed.

Lemma Qfloor_unique (y : Q) (k : Z) :
  (inject_Z k <= y)%Q -> (y < inject_Z (k + 1))%Q -> Qfloor y = k.
Proof.
  intros Hlo Hhi.
  apply Qfloor_resp_le in Hlo. rewrite Qfloor_Z in Hlo.
  pose proof (Qfloor_le y) as Hf.
  assert (H : (inject_Z (Qfloor y) < inject_Z (k + 1))%Q)
    by (eapply Qle_lt_trans; eassumption).
  rewrite <- Zlt_Qlt in H. lia.
Qed.

Lemma round_half_even_opp (y : Q) : round_half_even (- y) = - round_half_even y.
Proof.
  pose proof (Qfloor_le y) as Hlo. pose proof (Qlt_floor y) as Hhi.
  rewrite inject_Z_plus in Hhi. change (inject_Z 1) with 1%Q in Hhi.
  destruct (Qeq_dec y (inject_Z (Qfloor y))) as [E | N].
  - rewrite (round_half_even_Z y _ E).
    apply round_half_even_Z. rewrite E at 1. now rewrite inject_Z_opp.
  - assert (F : Qfloor (- y) = - Qfloor y - 1).
    { apply Qfloor_unique.
      - unfold Z.sub. rewrite inject_Z_plus, inject_Z_opp.
        change (inject_Z (- (1))) with (-1)%Q. lra.
      - replace (- Qfloor y - 1 + 1) with (- Qfloor y) by lia.
        rewrite inject_Z_opp.
        assert (inject_Z (Qfloor y) < y)%Q; [|lra].
        apply Qle_lteq in Hlo. destruct Hlo as [L | L]; [exact L|].
        elim N. now symmetry. }
    unfold round_half_even. rewrite F.
    unfold Z.sub at 1. rewrite inject_Z_plus, inject_Z_opp.
    change (inject_Z (- (1))) with (-1)%Q.
    assert (P : Z.even (- Qfloor y - 1) = negb (Z.even (Qfloor y))).
    { replace (- Qfloor y - 1) with (Z.pred (- Qfloor y)) by lia.
      rewrite Z.even_pred, Z.odd_opp, Z.negb_even. reflexivity. }
    rewrite P.
    destruct (Qcompare_spec (- y - (- inject_Z (Qfloor y) + -1)) (1 # 2))
      as [A | A | A];
      destruct (Qcompare_spec (y - inject_Z (Qfloor y)) (1 # 2))
        as [B | B | B]; try (exfalso; lra); try lia.
    destruct (Z.even (Qfloor y)); cbn [negb]; lia.
Qed.

Lemma Qabs_opp_eq (x : Q) : Qabs (- x) = Qabs x.
Proof.
  destruct x as [n d]. unfold Qabs, Qopp. cbn [Qnum Qden].
  now rewrite Z.abs_opp.
Qed.

Lemma binary64_comp (x y : Q) : (x == y)%Q -> binary64 x = binary64 y.
Proof. intros E. unfold binary64. now rewrite (Qred_complete x y E). Qed.

Lemma binary64_opp (x : Q) : (binary64 (- x) == - binary64 x)%Q.
Proof.
  unfold binary64. rewrite Qred_opp.
  unfold binade. rewrite Qabs_opp_eq.
  set (e := Z.max _ _).
  assert (E : (- Qred x / pow2 e == - (Qred x / pow2 e))%Q)
    by (unfold Qdiv; ring).
  assert (R : round_half_even (- Qred x / pow2 e)
              = - round_half_even (Qred x / pow2 e)).
  { rewrite <- round_half_even_opp. now apply round_half_even_comp. }
  rewrite R, inject_Z_opp. ring.
Qed.

Lemma Qtrunc_Z (k : Z) : Qtrunc (inject_Z k) = k.
Proof. unfold Qtrunc. cbn. apply Z.quot_1_r. Qed.

(** The number is below the next power of two. *)
Lemma Qlog2_upper (x : Q) : (0 < x)%Q -> (x < pow2 (Qlog2 x + 1))%Q.
Proof.
  intros Hx. unfold Qlog2.
  set (k := Z.log2 (Qnum x) - Z.log2 (Zpos (Qden x))).
  destruct (Qle_bool (pow2 k) x) eqn:E.
  - destruct x as [n d]. cbn [Qnum Qden] in k.
    assert (Hn : 0 < n) by (unfold Qlt in Hx; cbn in Hx; lia).
    pose proof (Z.log2_spec n Hn) as [_ Hhi].
    assert (Hd : 0 < Zpos d) by lia.
    pose proof (Z.log2_spec (Zpos d) Hd) as [Hlo _].
    pose proof (Z.log2_nonneg n) as Hln.
    pose proof (Z.log2_nonneg (Zpos d)) as Hld.
    replace (k + 1) with ((Z.log2 n + 1) + - Z.log2 (Zpos d))
      by (unfold k; lia).
    rewrite pow2_add, pow2_opp, !pow2_Z by lia.
    rewrite (Qmake_Qdiv n d).
    assert (P : (0 < inject_Z (2 ^ Z.log2 (Z.pos d)))%Q).
    { rewrite <- (Zlt_Qlt 0). apply Z.pow_pos_nonneg; lia. }
    apply Qlt_shift_div_r; [now rewrite <- (Zlt_Qlt 0)|].
    assert (R : (inject_Z (2 ^ (Z.log2 n + 1))
                 * / inject_Z (2 ^ Z.log2 (Z.pos d)) * inject_Z (Z.pos d)
                 == inject_Z (2 ^ (Z.log2 n + 1)) * inject_Z (Z.pos d)
                    / inject_Z (2 ^ Z.log2 (Z.pos d)))%Q).
    { field. intros Z. rewrite Z in P. discriminate P. }
    rewrite R. apply Qlt_shift_div_l; [exact P|].
    rewrite <- !inject_Z_mult, <- Zlt_Qlt.
    replace (Z.succ (Z.log2 n)) with (Z.log2 n + 1) in Hhi by lia.
    nia.
  - replace (k - 1 + 1) with k by lia.
    apply Qnot_le_lt. intros H. apply Qle_bool_iff in H. congruence.
Qed.

Lemma binary64_error (x : Q) :
  (Qabs (binary64 x - x) <= pow2 (binade (Qred x)) * (1 # 2))%Q.
Proof.
  unfold binary64. set (r := Qred x). set (e := binade r).
  pose proof (pow2_pos e) as He.
  pose proof (round_half_even_error (r / pow2 e)) as Hr.
  assert (E : (inject_Z (round_half_even (r / pow2 e)) * pow2 e - x
               == (inject_Z (round_half_even (r / pow2 e)) - r / pow2 e)
                  * pow2 e)%Q).
  { assert (Hx : (x == r)%Q) by (symmetry; apply Qred_correct).
    rewrite Hx. field. intros Z. rewrite Z in He. discriminate He. }
  rewrite E, Qabs_Qmult, (Qabs_pos (pow2 e)) by now apply Qlt_le_weak.
  rewrite (Qmult_comm (pow2 e)).
  apply Qmult_le_compat_r; [exact Hr | now apply Qlt_le_weak].
Qed.

Lemma Qabs_pos_nonzero (r : Q) : ~ (r == 0)%Q -> (0 < Qabs r)%Q.
Proof.
  intros N. destruct (Qlt_le_dec 0 (Qabs r)) as [H | H]; [exact H|].
  elim N. apply Qabs_Qle_condition in H. lra.
Qed.

(** Below 2^53 the spacing of the format is at most one. *)
Lemma binade_small (r : Q) :
  ~ (r == 0)%Q -> (Qabs r < pow2 53)%Q -> binade r <= 0.
Proof.
  intros N H. unfold binade.
  pose proof (Qlog2_lower (Qabs r) (Qabs_pos_nonzero r N)) as L.
  assert (Qlog2 (Qabs r) < 53); [|lia].
  apply pow2_lt_inv. eapply Qle_lt_trans; eassumption.
Qed.

Lemma pow2_neg_Z (e : Z) : e <= 0 -> (pow2 e == / inject_Z (2 ^ (- e)))%Q.
Proof.
  intros H. replace e with (- - e) at 1 by lia.
  rewrite pow2_opp, pow2_Z by lia. reflexivity.
Qed.

Lemma pow2_53 : (pow2 53 == inject_Z (2 ^ 53))%Q.
Proof. apply pow2_Z. lia. Qed.

(** Every integer below 2^53 in magnitude is a float. *)
Lemma binary64_int (k : Z) : Z.abs k < 2 ^ 53 -> (binary64 (inject_Z k) == inject_Z k)%Q.
Proof.
  intros Hk. unfold binary64.
  set (r := Qred (inject_Z k)). set (e := binade r).
  assert (Hr : (r == inject_Z k)%Q) by apply Qred_correct.
  destruct (Z.eq_dec k 0) as [-> | Hnz].
  - rewrite (round_half_even_Z _ 0); [ring|]. rewrite Hr. unfold Qdiv. ring.
  - assert (He : e <= 0).
    { apply binade_small.
      - rewrite Hr. intros Z. unfold Qeq in Z. cbn in Z. lia.
      - rewrite Hr, pow2_53.
        change (Qabs (inject_Z k)) with (inject_Z (Z.abs k)).
        now rewrite <- Zlt_Qlt. }
    assert (Hp : (0 < inject_Z (2 ^ (- e)))%Q).
    { rewrite <- (Zlt_Qlt 0). apply Z.pow_pos_nonneg; lia. }
    assert (Hq : (r / pow2 e == inject_Z (k * 2 ^ (- e)))%Q).
    { rewrite Hr, (pow2_neg_Z e He), inject_Z_mult. field.
      intros Z. rewrite Z in Hp. discriminate Hp. }
    rewrite (round_half_even_Z _ _ Hq), (pow2_neg_Z e He), inject_Z_mult. field.
    intros Z. rewrite Z in Hp. discriminate Hp.
Qed.

Lemma round_half_even_nonneg (y : Q) : (0 <= y)%Q -> 0 <= round_half_even y.
Proof.
  intros Hy. apply Qfloor_resp_le in Hy. change (Qfloor 0) with 0 in Hy.
  unfold round_half_even.
  destruct (y - inject_Z (Qfloor y) ?= 1 # 2)%Q; [|lia|lia].
  destruct (Z.even (Qfloor y)); lia.
Qed.

Lemma binary64_nonneg (x : Q) : (0 <= x)%Q -> (0 <= binary64 x)%Q.
Proof.
  intros Hx. unfold binary64. set (r := Qred x). set (e := binade r).
  pose proof (pow2_pos e) as He.
  apply Qmult_le_0_compat; [|now apply Qlt_le_weak].
  rewrite <- (Zle_Qle 0). apply round_half_even_nonneg.
  apply Qle_shift_div_l; [exact He|].
  rewrite Qmult_0_l. unfold r. now rewrite Qred_correct.
Qed.

Lemma Qnum_nonneg (q : Q) : (0 <= q)%Q -> 0 <= Qnum q.
Proof. unfold Qle. cbn. lia. Qed.

Lemma Qtrunc_between (q : Q) (k : Z) :
  0 <= k -> (inject_Z k <= q)%Q -> (q < inject_Z (k + 1))%Q -> Qtrunc q = k.
Proof.
  intros Hk Hlo Hhi.
  rewrite Qtrunc_nonneg; [now apply Qfloor_unique|].
  apply Qnum_nonneg. apply Qle_trans with (inject_Z k); [|exact Hlo].
  now rewrite <- (Zle_Qle 0).
Qed.

(** Truncating the correctly rounded quotient of two integers gives their
    integer quotient, as long as the dividend is below 2^53. *)
Lemma trunc_binary64_div_nonneg (n h : Z) :
  0 <= n < 2 ^ 53 -> 0 < h ->
  Qtrunc (binary64 (inject_Z n / inject_Z h)) = n / h.
Proof.
  intros Hn Hh.
  set (x := (inject_Z n / inject_Z h)%Q).
  pose proof (Z.div_mod n h ltac:(lia)) as Hdiv.
  pose proof (Z.mod_pos_bound n h Hh) as Hr.
  assert (Hk : 0 <= n / h) by (apply Z.div_pos; lia).
  assert (Hkn : n / h <= n) by (apply Z.div_le_upper_bound; nia).
  assert (Hhq : (0 < inject_Z h)%Q) by now rewrite <- (Zlt_Qlt 0).
  assert (Hhnz : ~ (inject_Z h == 0)%Q)
    by (intros Z; rewrite Z in Hhq; discriminate Hhq).
  set (u := (1 / inject_Z h)%Q).
  set (t := (inject_Z (n mod h) / inject_Z h)%Q).
  assert (Hx : (x == inject_Z (n / h) + t)%Q).
  { unfold x, t. rewrite Hdiv at 1.
    rewrite inject_Z_plus, inject_Z_mult. now field. }
  destruct (Z.eq_dec (n mod h) 0) as [Hz | Hnz].
  - assert (E : (x == inject_Z (n / h))%Q).
    { rewrite Hx. unfold t. rewrite Hz. unfold Qdiv. ring. }
    rewrite (binary64_comp _ _ E).
    assert (Hsmall : Z.abs (n / h) < 2 ^ 53) by lia.
    rewrite (Qtrunc_comp _ _ (binary64_int _ Hsmall)).
    apply Qtrunc_Z.
  - assert (Hu : (0 < u)%Q).
    { unfold u. apply Qlt_shift_div_l; [exact Hhq|]. now rewrite Qmult_0_l. }
    assert (Ht1 : (u <= t)%Q).
    { unfold u, t, Qdiv. apply Qmult_le_compat_r.
      - rewrite <- (Zle_Qle 1). lia.
      - apply Qlt_le_weak. now apply Qinv_lt_0_compat. }
    assert (Ht2 : (t + u <= 1)%Q).
    { assert (E : (t + u == inject_Z (n mod h + 1) / inject_Z h)%Q).
      { unfold t, u. rewrite inject_Z_plus. now field. }
      rewrite E. apply Qle_shift_div_r; [exact Hhq|].
      rewrite Qmult_1_l, <- Zle_Qle. lia. }
    assert (Hxpos : (0 < x)%Q).
    { rewrite Hx. assert (0 <= inject_Z (n / h))%Q
        by now rewrite <- (Zle_Qle 0). lra. }
    assert (Hxu : (x * (1 # 2 ^ 53) < u)%Q).
    { assert (E : (x * (1 # 2 ^ 53) == inject_Z n * (1 # 2 ^ 53) * u)%Q)
        by (unfold x, u; now field).
      rewrite E. rewrite <- (Qmult_1_l u) at 2.
      apply Qmult_lt_compat_r; [exact Hu|].
      assert (inject_Z n < inject_Z (2 ^ 53))%Q by (rewrite <- Zlt_Qlt; lia).
      change (inject_Z (2 ^ 53)) with (9007199254740992 # 1)%Q in H.
      change (2 ^ 53)%positive with 9007199254740992%positive. lra. }
    pose proof (binary64_error x) as Herr.
    apply Qabs_Qle_condition in Herr.
    assert (Hred : (Qabs (Qred x) == x)%Q).
    { rewrite Qred_correct. apply Qabs_pos. now apply Qlt_le_weak. }
    assert (Hredpos : (0 < Qabs (Qred x))%Q) by now rewrite Hred.
    assert (Hred1 : (x <= Qabs (Qred x))%Q) by (rewrite Hred; apply Qle_refl).
    assert (Hred2 : (Qabs (Qred x) <= x)%Q) by (rewrite Hred; apply Qle_refl).
    clear Hred.
    assert (B : (inject_Z (n / h) <= binary64 x)%Q /\ (binary64 x < inject_Z (n / h + 1))%Q).
    { rewrite inject_Z_plus. change (inject_Z 1) with 1%Q.
      unfold binade in Herr.
      destruct (Z.max_spec (Qlog2 (Qabs (Qred x)) - 52) (-1074))
        as [[Hlt Hm] | [Hge Hm]]; rewrite Hm in Herr.
      - (* the subnormal range: the quotient is below one half *)
        pose proof (Qlog2_upper _ Hredpos) as U.
        assert (U' : (pow2 (Qlog2 (Qabs (Qred x)) + 1) <= pow2 (-1))%Q)
          by (apply pow2_le; lia).
        assert (V : (pow2 (-1074) <= pow2 (-1))%Q) by (apply pow2_le; lia).
        change (pow2 (-1)) with (1 # 2)%Q in U', V.
        assert (K : n / h = 0).
        { assert (inject_Z (n / h) < inject_Z 1)%Q; [|rewrite <- Zlt_Qlt in H; lia].
          change (inject_Z 1) with 1%Q. lra. }
        rewrite K. change (inject_Z 0) with 0%Q.
        split; [apply binary64_nonneg; lra | lra].
      - (* the normal range: half a unit in the last place is below 1/h *)
        pose proof (Qlog2_lower _ Hredpos) as L.
        replace (Qlog2 (Qabs (Qred x)) - 52)
          with (Qlog2 (Qabs (Qred x)) + -52) in Herr by lia.
        rewrite pow2_add in Herr.
        change (pow2 (-52)) with (1 # 2 ^ 52)%Q in Herr.
        set (p := pow2 (Qlog2 (Qabs (Qred x)))) in *.
        assert (C : ((1 # 2 ^ 52) * (1 # 2) == 1 # 2 ^ 53)%Q) by reflexivity.
        rewrite <- Qmult_assoc, C in Herr.
        assert (p * (1 # 2 ^ 53) <= x * (1 # 2 ^ 53))%Q
          by (apply Qmult_le_compat_r;
              [eapply Qle_trans; eassumption | discriminate]).
        split; lra. }
    destruct B as [Blo Bhi].
    now apply Qtrunc_between.
Qed.

Lemma trunc_binary64_div (n h : Z) :
  Z.abs n < 2 ^ 53 -> 0 < h ->
  Qtrunc (binary64 (inject_Z n / inject_Z h)) = Z.quot n h.
Proof.
  intros Hn Hh.
  destruct (Z.le_gt_cases 0 n) as [Hpos | Hneg].
  - rewrite trunc_binary64_div_nonneg by lia.
    symmetry. apply Z.quot_div_nonneg; lia.
  - assert (E : (inject_Z n / inject_Z h == - (inject_Z (- n) / inject_Z h))%Q).
    { rewrite inject_Z_opp. unfold Qdiv. ring. }
    rewrite (binary64_comp _ _ E).
    rewrite (Qtrunc_comp _ _ (binary64_opp _)), Qtrunc_opp.
    rewrite trunc_binary64_div_nonneg by lia.
    rewrite <- (Z.quot_div_nonneg (- n) h) by lia.
    rewrite Z.quot_opp_l by lia. lia.
Qed.

(** [binary64] computes what the machine computes: on each sample the
    product and the quotient of machine floats have the values [binary64]
    gives, in the normal and in the subnormal range, ties included. *)
Lemma binary64_agrees_with_machine_floats :
  forallb (fun '(a, x, b) =>
             same_value (machine_scaled a x b) (binary64_scaled a x b))
    [(1000 # 1, 323 # 10, 100 # 1); (1000 # 1, 3 # 10, 100 # 1);
     (1000 # 1, 819 # 100, 45 # 1); (1000 # 1, 9 # 100, 45 # 1);
     (1234 # 1, 1009 # 10, 100 # 1); (1234 # 1, -1009 # 10, 100 # 1);
     (1 # 10, 1 # 10, 3 # 1); (7 # 3, -5 # 7, 1 # 1000000);
     (1 # 3, 1 # 1000000000000, 9007199254740991 # 1);
     (9007199254740991 # 1, 9007199254740991 # 1, 3 # 1);
     (9007199254740993 # 1, 1 # 1, 1 # 1);
     (12345 # 1000, 225 # 10, 225 # 10)]%Q = true /\
  forallb (fun '(k, d) => same_value (machine_tiny k d) (binary64_tiny k d))
    [(-1022, 3); (-1070, 3); (-1070, 7); (-1073, 3); (-1074, 2);
     (-1073, 2); (-1072, 8); (-1074, 3); (-1060, -11)] = true.
Proof. split; vm_compute; reflexivity. Qed.

(** ** True division *)

Lemma py_truediv_nonzero (x y : num) :
  ~ (to_Q y == 0)%Q ->
  py_truediv x y
  = inr (NFloat match x, y with
                | NInt a, NInt b => inject_Z a / inject_Z b
                | _, _ => float_of x / float_of y
                end).
Proof.
  intros Hy. unfold py_truediv.
  destruct (Qeq_bool (to_Q y) 0) eqn:E.
  - now apply Qeq_bool_iff in E.
  - destruct x, y; reflexivity.
Qed.

Lemma py_truediv_100 (x : num) :
  py_truediv x (NInt 100)
  = inr (NFloat match x with
                | NInt a => inject_Z a / inject_Z 100
                | NFloat _ => float_of x / float_of (NInt 100)
                end).
Proof. now rewrite py_truediv_nonzero. Qed.


(** ** The result adapter for reads *)

Lemma apiget_failure (status : pyval) (rest : list pyval) (context : message) :
  failure_flag status ->
  apiget (status :: rest) context
  = inl (DriverError context (Some (status :: rest))).
Proof. unfold failure_flag, apiget; intros ->; reflexivity. Qed.

Lemma apiget_success (status : pyval) (rest : list pyval) (context : message) :
  ~ failure_flag status ->
  apiget (status :: rest) context
  = inr (match rest with [x] => x | _ => PTuple rest end).
Proof.
  unfold failure_flag, apiget; intros H.
  destruct (py_eq_int status 0); [now elim H|].
  now destruct rest as [|x [|y rest]].
Qed.

(** C5. On a read result whose leading status flag is the failure value,
    [apiget] fails with a [DriverError] carrying the context and the raw
    tuple ([(0,)] fails); on any other status with exactly one data element
    it returns that element unwrapped ([(1, 123)] gives [123]); with any
    other number of data elements it returns them, in order, as a tuple. *)
Theorem apiget_contract (status : pyval) (rest : list pyval)
    (context : message) :
  (failure_flag status ->
   apiget (status :: rest) context
   = inl (DriverError context (Some (status :: rest)))) /\
  (~ failure_flag status ->
   forall x, rest = [x] -> apiget (status :: rest) context = inr x) /\
  (~ failure_flag status ->
   length rest <> 1%nat ->
   apiget (status :: rest) context = inr (PTuple rest)) /\
  apiget [PInt 0] context = inl (DriverError context (Some [PInt 0])) /\
  apiget [PInt 1; PInt 123] context = inr (PInt 123).
Proof.
  repeat split.
  - apply apiget_failure.
  - intros H x ->. now rewrite apiget_success.
  - intros H Hlen. rewrite apiget_success by assumption.
    destruct rest as [|x [|y rest]]; try reflexivity.
    now elim Hlen.
Qed.

Lemma apiget_contract_witness :
  apiget [PInt 0; PInt 0] default_getter
  = inl (DriverError default_getter (Some [PInt 0; PInt 0])) /\
  apiget [PInt 1; PStr "USB Roboclaw 2x7a v4.1.34"] default_getter
  = inr (PStr "USB Roboclaw 2x7a v4.1.34") /\
  apiget [PInt 1; PInt 7; PInt 9] default_getter
  = inr (PTuple [PInt 7; PInt 9]).
Proof.
  split; [|split].
  - apply (proj1 (apiget_contract (PInt 0) [PInt 0] default_getter)).
    reflexivity.
  - apply (proj1 (proj2 (apiget_contract (PInt 1)
                           [PStr "USB Roboclaw 2x7a v4.1.34"] default_getter))).
    + discriminate.
    + reflexivity.
  - apply (proj1 (proj2 (proj2 (apiget_contract (PInt 1) [PInt 7; PInt 9]
                                  default_getter)))).
    + discriminate.
    + discriminate.
Defined.

(** ** Identifier validation *)

Lemma check_id_sound (id : pyval) (t : motor_id) :
  check_id id = inr t -> well_formed_id id t.
Proof.
  unfold check_id, well_formed_id.
  destruct t as [[address motor] inverted].
  destruct (sequence_items id) as [items|] eqn:Hitems; [|discriminate].
  destruct items as [|id0 [|id1 [|id2 [|more items]]]]; try discriminate.
  destruct (int_value id0) as [a|] eqn:H0; [|discriminate].
  destruct ((a <? 128) || (135 <? a)) eqn:Hrange; [discriminate|].
  destruct (int_value id1) as [m|] eqn:H1; [|discriminate].
  destruct (negb (m =? 1) && negb (m =? 2)) eqn:Hmotor; [discriminate|].
  destruct id2; try discriminate.
  intros [= <- <- <-].
  apply orb_false_elim in Hrange as [Hlo Hhi].
  apply Z.ltb_ge in Hlo, Hhi.
  assert (Hid0 : id0 = PInt a).
  { destruct id0 as [|flag|z|q|s|items|items]; try discriminate.
    - destruct flag; injection H0 as <-; lia.
    - now injection H0 as <-. }
  subst id0.
  split; [|split].
  - destruct id; try discriminate; injection Hitems as ->; auto.
  - lia.
  - exists m. split; [assumption|].
    apply andb_false_elim in Hmotor as [H | H];
      apply negb_false_iff, Z.eqb_eq in H; auto.
Qed.

Lemma check_id_complete (id : pyval) (t : motor_id) :
  well_formed_id id t -> check_id id = inr t.
Proof.
  unfold well_formed_id.
  destruct t as [[address motor] inverted].
  intros (Hshape & Hrange & channel & Hmotor & Hchannel).
  assert (Hlo : (address <? 128) || (135 <? address) = false).
  { apply orb_false_intro; apply Z.ltb_ge; lia. }
  destruct Hshape as [-> | ->]; unfold check_id; cbn;
    rewrite Hlo, Hmotor; destruct Hchannel as [-> | ->]; reflexivity.
Qed.

Lemma check_id_error (id : pyval) (e : error) :
  check_id id = inl e -> exists msg, e = InvalidIdentifier msg.
Proof.
  unfold check_id.
  destruct (sequence_items id) as [items|]; [|intros [= <-]; eauto].
  destruct items as [|id0 [|id1 [|id2 [|more items]]]];
    try (intros [= <-]; eauto).
  destruct (int_value id0) as [a|]; [|intros [= <-]; eauto].
  destruct ((a <? 128) || (135 <? a)); [intros [= <-]; eauto|].
  destruct (int_value id1) as [m|]; [|intros [= <-]; eauto].
  destruct (negb (m =? 1) && negb (m =? 2)); [intros [= <-]; eauto|].
  destruct id2; try (intros [= <-]; eauto); discriminate.
Qed.

(** C4. [check_id] succeeds exactly on a three-field tuple or list whose
    address is an integer from 128 to 135, whose channel is an integer of
    value 1 or 2 and whose inversion field is a boolean, and it returns the
    three fields; every other input fails with [InvalidIdentifier].
    [(128,1,False)] validates; [(127,1,False)], [(128,3,False)],
    [(128,1,"no")] and every 2-tuple fail. *)
Theorem check_id_exact :
  (forall id t, check_id id = inr t <-> well_formed_id id t) /\
  (forall id, (forall t, ~ well_formed_id id t) ->
              exists msg, check_id id = inl (InvalidIdentifier msg)) /\
  check_id (PTuple [PInt 128; PInt 1; PBool false])
  = inr (128, PInt 1, false) /\
  (exists msg, check_id (PTuple [PInt 127; PInt 1; PBool false])
               = inl (InvalidIdentifier msg)) /\
  (exists msg, check_id (PTuple [PInt 128; PInt 3; PBool false])
               = inl (InvalidIdentifier msg)) /\
  (exists msg, check_id (PTuple [PInt 128; PInt 1; PStr "no"])
               = inl (InvalidIdentifier msg)) /\
  (forall x y, exists msg, check_id (PTuple [x; y])
                           = inl (InvalidIdentifier msg)).
Proof.
  split; [|split; [|repeat split]].
  - intros id t; split; [apply check_id_sound | apply check_id_complete].
  - intros id Hnone.
    destruct (check_id id) as [e | t] eqn:H.
    + destruct (check_id_error _ _ H) as [msg ->]. now exists msg.
    + elim (Hnone t). now apply check_id_sound.
  - eexists; reflexivity.
  - eexists; reflexivity.
  - eexists; reflexivity.
  - intros x y; eexists; reflexivity.
Qed.

Lemma check_id_exact_witness :
  check_id (PList [PInt 135; PInt 2; PBool true]) = inr (135, PInt 2, true) /\
  (exists msg, check_id (PStr "128") = inl (InvalidIdentifier msg)).
Proof.
  split.
  - apply (proj1 check_id_exact). cbn. repeat split; auto; try lia.
    exists 2; auto.
  - apply (proj1 (proj2 check_id_exact)).
    intros [[address motor] inverted] [[H | H] _]; discriminate.
Defined.

(** A validated identifier names channel 1 or channel 2, and [motor == 1]
    tells them apart. *)
Lemma validated_channel (id : pyval) (address : Z) (motor : pyval)
    (inverted : bool) :
  check_id id = inr (address, motor, inverted) ->
  (py_eq_int motor 1 = true /\ int_value motor = Some 1) \/
  (py_eq_int motor 1 = false /\ int_value motor = Some 2).
Proof.
  intros H. apply check_id_sound in H.
  destruct H as (_ & _ & channel & Hm & Hc).
  destruct motor as [|flag|z|q|s|items|items]; try discriminate;
    cbn in Hm |- *; injection Hm as <-.
  - destruct flag; destruct Hc as [Hc | Hc]; try discriminate; auto.
  - destruct Hc as [-> | ->]; auto.
Qed.

(** ** Running an operation past its two guards *)

Lemma apiset_outcome (rc : Roboclaw) (w : world) (c : call)
    (context : message) :
  write_outcome rc w c (apiset (write_reply rc (issued w) c) context).
Proof.
  unfold write_outcome, apiset.
  destruct (write_reply rc (issued w) c); split; intros; try discriminate.
  - reflexivity.
  - now exists context.
Qed.

(** The tail shared by every write operation: one call chosen by the
    channel, then [apiset]. *)
Lemma dispatch_write (rc : Roboclaw) (w : world) (motor : pyval)
    (m1 m2 : call) (context : message) :
  roboclaw (self w) = Some rc ->
  (rc' <- get_roboclaw ;;
   if py_eq_int motor 1 then
     res <- write rc' m1 ;; lift (apiset res context)
   else
     res <- write rc' m2 ;; lift (apiset res context)) w
  = (apiset (write_reply rc (issued w) (by_channel motor m1 m2)) context,
     after w [by_channel motor m1 m2]).
Proof.
  intros Hrc. unfold bind, get_roboclaw, by_channel. rewrite Hrc.
  destruct (py_eq_int motor 1); reflexivity.
Qed.

(** A bind steps with the run of its first computation. *)
Lemma bind_run {A B : Type} (m : M A) (k : A -> M B) (w w' : world)
    (r : result A) :
  m w = (r, w') ->
  (x <- m ;; k x) w
  = match r with
    | inl e => (inl e, w')
    | inr a => k a w'
    end.
Proof. intros H. unfold bind. now rewrite H. Qed.

Section Guards.

Context {A : Type} (id : pyval) (w : world) (k : Z -> pyval -> bool -> M A).

Lemma guards_pass (address : Z) (motor : pyval) (inverted : bool)
    (rc : Roboclaw) :
  check_id id = inr (address, motor, inverted) ->
  roboclaw (self w) = Some rc ->
  ('(a, m, i) <- lift (check_id id) ;; check_roboclaw ;; k a m i) w
  = k address motor inverted w.
Proof.
  intros Hid Hrc. unfold bind, lift, check_roboclaw.
  rewrite Hid, Hrc. reflexivity.
Qed.

Lemma guards_reject_id (e : error) :
  check_id id = inl e ->
  ('(a, m, i) <- lift (check_id id) ;; check_roboclaw ;; k a m i) w
  = (inl e, w).
Proof. intros Hid. unfold bind, lift. now rewrite Hid. Qed.

Lemma guards_reject_handle (t : motor_id) :
  check_id id = inr t ->
  roboclaw (self w) = None ->
  ('(a, m, i) <- lift (check_id id) ;; check_roboclaw ;; k a m i) w
  = (inl (NotConnected "RoboClaw not yet connected"), w).
Proof.
  intros Hid Hrc. unfold bind, lift, check_roboclaw.
  rewrite Hid. destruct t as [[a m] i]. rewrite Hrc. reflexivity.
Qed.

End Guards.

(** ** Power *)

(** The float [64 + p*63/100] and the exact rational have the same integer
    part: for none of the 201 percentages does a rounding cross an
    integer. *)
Lemma power_level_floor (p : Z) :
  -100 <= p <= 100 ->
  py_int (py_add (NInt 64) (NFloat (inject_Z (p * 63) / inject_Z 100)))
  = Qfloor (inject_Z 64 + inject_Z p * inject_Z 63 / inject_Z 100).
Proof.
  intros Hp.
  assert (H : forallb
                (fun n =>
                   let p := Z.of_nat n - 100 in
                   py_int (py_add (NInt 64)
                             (NFloat (inject_Z (p * 63) / inject_Z 100)))
                   =? Qfloor (inject_Z 64
                              + inject_Z p * inject_Z 63 / inject_Z 100))
                (seq 0 201) = true) by (vm_compute; reflexivity).
  rewrite forallb_forall in H.
  specialize (H (Z.to_nat (p + 100))).
  cbv zeta in H. rewrite Z2Nat.id in H by lia.
  replace (p + 100 - 100) with p in H by lia.
  apply Z.eqb_eq, H. apply in_seq. lia.
Qed.

Lemma power_level_range (p : Z) :
  -100 <= p <= 100 ->
  1 <= Qfloor (inject_Z 64 + inject_Z p * inject_Z 63 / inject_Z 100) <= 127.
Proof.
  intros Hp.
  cbv beta iota delta [Qfloor Qplus Qdiv Qmult Qinv inject_Z Qnum Qden].
  split.
  - apply Z.div_le_lower_bound; lia.
  - apply Z.div_le_upper_bound; lia.
Qed.

(** C1, amended.  On a connected wrapper and a validated identifier, for
    every integer p from -100 to 100 [power_percent] issues exactly one
    forward/backward-power call, of the identifier's channel, whose drive
    level is 64 + 63p/100 rounded down to an integer (the fraction is cut
    off, not rounded to the nearest integer); that level lies between 1 and
    127; for |p| > 100 it fails with [OutOfRange] and issues no call. *)
Theorem power_percent_level (id : pyval) (address : Z) (motor : pyval)
    (inverted : bool) (rc : Roboclaw) (w : world) (p : Z) :
  check_id id = inr (address, motor, inverted) ->
  roboclaw (self w) = Some rc ->
  let level := Qfloor (inject_Z 64 + inject_Z p * inject_Z 63 / inject_Z 100) in
  let c := by_channel motor (ForwardBackwardM1 address level)
                            (ForwardBackwardM2 address level) in
  (-100 <= p <= 100 ->
   1 <= level <= 127 /\
   exists res, power_percent id (NInt p) w = (res, after w [c]) /\
               write_outcome rc w c res) /\
  (100 < Z.abs p ->
   exists msg, power_percent id (NInt p) w = (inl (OutOfRange msg), w)).
Proof.
  intros Hid Hrc level c. unfold power_percent.
  rewrite (guards_pass _ _ _ _ _ _ rc Hid Hrc). cbn [py_int].
  split.
  - intros Hp. split; [now apply power_level_range|].
    replace (100 <? Z.abs p) with false by (symmetry; apply Z.ltb_ge; lia).
    unfold bind at 1. unfold lift at 1.
    cbn [py_mul]. rewrite py_truediv_100. cbv beta iota.
    rewrite power_level_floor by assumption. fold level.
    rewrite (dispatch_write rc w motor _ _ _ Hrc). fold c.
    eexists; split; [reflexivity|]. apply apiset_outcome.
  - intros Hp.
    replace (100 <? Z.abs p) with true by (symmetry; apply Z.ltb_lt; lia).
    eexists; reflexivity.
Qed.

Lemma power_percent_level_witness :
  1 <= 95 <= 127 /\
  exists res,
    power_percent Sample.first_motor (NInt 50) (Sample.connected Sample.obliging)
    = (res, after (Sample.connected Sample.obliging)
              [ForwardBackwardM1 128 95]).
Proof.
  destruct (power_percent_level Sample.first_motor 128 (PInt 1) false
              Sample.obliging (Sample.connected Sample.obliging) 50
              eq_refl eq_refl) as [Hin _].
  destruct Hin as [Hrange (res & Hrun & _)]; [lia|].
  split; [exact Hrange|]. exists res. exact Hrun.
Defined.

(** C1 as worded fails at p = 1: the call carries level 64, where
    round(64 + 63/100) is 65. *)
Lemma power_percent_not_rounded :
  power_percent Sample.first_motor (NInt 1) (Sample.connected Sample.obliging)
  = (inr tt, after (Sample.connected Sample.obliging)
               [ForwardBackwardM1 128 64]) /\
  spec_power_level 1 = 65 /\
  issued (snd (power_percent Sample.first_motor (NInt 1)
                 (Sample.connected Sample.obliging)))
  <> [ForwardBackwardM1 128 (spec_power_level 1)].
Proof.
  split; [reflexivity|]. split; [reflexivity|].
  vm_compute. discriminate.
Qed.

(** ** Arithmetic of the two scalings *)

Lemma binary64_abs (q : Q) : (binary64 (Qabs q) == Qabs (binary64 q))%Q.
Proof.
  destruct (Qlt_le_dec q 0) as [Hneg | Hpos].
  - assert (Hq : (q <= 0)%Q) by now apply Qlt_le_weak.
    rewrite (binary64_comp _ _ (Qabs_neg q Hq)), binary64_opp.
    assert (H : (0 <= binary64 (- q))%Q) by (apply binary64_nonneg; lra).
    rewrite binary64_opp in H.
    rewrite Qabs_neg by lra. reflexivity.
  - rewrite (binary64_comp _ _ (Qabs_pos q Hpos)).
    rewrite Qabs_pos by now apply binary64_nonneg. reflexivity.
Qed.

Lemma to_Q_abs (x : num) : (to_Q (py_abs x) == Qabs (to_Q x))%Q.
Proof.
  destruct x as [z|q]; cbn [py_abs to_Q]; [reflexivity|].
  apply binary64_abs.
Qed.

Lemma to_Q_neg (x : num) : (to_Q (py_neg x) == - to_Q x)%Q.
Proof.
  destruct x as [z|q]; cbn [py_neg to_Q].
  - now rewrite inject_Z_opp.
  - apply binary64_opp.
Qed.

Lemma float_of_neg (x : num) : (float_of (py_neg x) == - float_of x)%Q.
Proof.
  destruct x as [z|q]; cbn [py_neg float_of].
  - rewrite <- binary64_opp.
    rewrite (binary64_comp (inject_Z (- z)) (- inject_Z z));
      [reflexivity | now rewrite inject_Z_opp].
  - apply binary64_opp.
Qed.

Lemma py_int_neg (x : num) : py_int (py_neg x) = - py_int x.
Proof.
  destruct x as [z|q]; cbn [py_neg py_int]; [reflexivity|].
  rewrite <- Qtrunc_opp. apply Qtrunc_comp, binary64_opp.
Qed.

Lemma py_gt_spec (x y : num) : py_gt x y = true <-> (to_Q y < to_Q x)%Q.
Proof.
  assert (G : negb (Qle_bool (to_Q x) (to_Q y)) = true
              <-> (to_Q y < to_Q x)%Q).
  { rewrite negb_true_iff. split.
    - intros H. apply Qnot_le_lt. intros Hle.
      apply Qle_bool_iff in Hle. congruence.
    - intros H. destruct (Qle_bool (to_Q x) (to_Q y)) eqn:E; [|reflexivity].
      apply Qle_bool_iff in E. elim (Qlt_not_le _ _ H E). }
  destruct x as [a|q], y as [b|r]; cbn [py_gt]; try exact G.
  rewrite Z.ltb_lt. cbn [to_Q]. rewrite Zlt_Qlt. reflexivity.
Qed.

Lemma py_gt_false (x y : num) : (to_Q x <= to_Q y)%Q -> py_gt x y = false.
Proof.
  intros H. destruct (py_gt x y) eqn:E; [|reflexivity].
  apply py_gt_spec in E. elim (Qlt_not_le _ _ E H).
Qed.

(** A number within [-n, n] stays there under [int()]. *)
Lemma py_int_abs_le (v : num) (n : Z) :
  (Qabs (to_Q v) <= inject_Z n)%Q -> Z.abs (py_int v) <= n.
Proof.
  intros H. rewrite Zle_Qle.
  destruct v as [z|q]; cbn [py_int to_Q] in *.
  - exact H.
  - eapply Qle_trans; [apply Qtrunc_abs_le | exact H].
Qed.

(** [int()] cuts off less than one. *)
Lemma Qtrunc_abs_lt (q : Q) : (Qabs q < inject_Z (Z.abs (Qtrunc q) + 1))%Q.
Proof.
  destruct q as [a b]. unfold Qtrunc, Qabs, Qlt. cbn [Qnum Qden inject_Z].
  rewrite Z.mul_1_r.
  rewrite <- Z.quot_abs by lia. rewrite (Z.abs_eq (Zpos b)) by lia.
  rewrite Z.quot_div_nonneg by lia.
  pose proof (Z.mul_succ_div_gt (Z.abs a) (Zpos b) ltac:(lia)). lia.
Qed.

(** A percentage that passes the range check is in range. *)
Lemma accepted_in_range (v : num) : Z.abs (py_int v) <= 100 -> in_range v.
Proof.
  destruct v as [n|q]; cbn [py_int in_range]; intros H.
  - apply Z.le_lt_trans with 100; [exact H | reflexivity].
  - unfold finite.
    apply Qlt_le_trans with (inject_Z (Z.abs (Qtrunc (binary64 q)) + 1));
      [apply Qtrunc_abs_lt|].
    rewrite pow2_Z by lia. rewrite <- Zle_Qle.
    apply Z.le_trans with 101; [lia | discriminate].
Qed.

(** Converting a number in range to a float does not change its value. *)
Lemma float_of_in_range (x : num) : in_range x -> (float_of x == to_Q x)%Q.
Proof.
  destruct x as [z|q]; cbn [in_range float_of to_Q]; intros H.
  - now apply binary64_int.
  - reflexivity.
Qed.

(** What [int(a * x / b)] is, the product and the quotient rounded in
    turn. *)
Lemma scaled_general (a x b : num) :
  in_range a -> in_range x -> in_range b ->
  (forall m n, a = NInt m -> x = NInt n -> Z.abs (m * n) < 2 ^ 53) ->
  ~ (to_Q b == 0)%Q ->
  exists r,
    py_truediv (py_mul a x) b = inr r /\
    py_int r = Qtrunc (binary64 (binary64 (to_Q a * to_Q x) / to_Q b)).
Proof.
  intros Ha Hx Hb Hprod Hnz.
  rewrite py_truediv_nonzero by exact Hnz.
  eexists; split; [reflexivity|]. cbn [py_int]. f_equal.
  apply binary64_comp.
  pose proof (float_of_in_range a Ha) as Ea.
  pose proof (float_of_in_range x Hx) as Ex.
  pose proof (float_of_in_range b Hb) as Eb.
  assert (Emixed : binary64 (float_of a * float_of x)
                   = binary64 (to_Q a * to_Q x)).
  { apply binary64_comp. now rewrite Ea, Ex. }
  destruct a as [m|qa], x as [n|qx]; cbn [py_mul];
    try (destruct b; cbn [float_of] in *; rewrite Emixed, Eb; reflexivity).
  assert (Eint : (binary64 (to_Q (NInt m) * to_Q (NInt n))
                  == inject_Z (m * n))%Q).
  { cbn [to_Q]. rewrite <- inject_Z_mult.
    apply binary64_int. now apply Hprod. }
  destruct b as [h|qb]; rewrite Eint; [reflexivity|].
  cbn [float_of to_Q].
  rewrite binary64_int by now apply Hprod.
  reflexivity.
Qed.

(** On integers below 2^53, [int(m * n / h)] is the integer quotient
    truncated toward zero. *)
Lemma scaled_closed_form (m n h : Z) :
  Z.abs (m * n) < 2 ^ 53 -> 0 < h ->
  Qtrunc (binary64 (binary64 (inject_Z m * inject_Z n) / inject_Z h))
  = Z.quot (m * n) h.
Proof.
  intros Hmn Hh. rewrite <- inject_Z_mult.
  rewrite (binary64_comp _ (inject_Z (m * n) / inject_Z h))
    by now rewrite binary64_int.
  now apply trunc_binary64_div.
Qed.

Lemma scaled_ints (m n h : Z) :
  Z.abs (m * n) < 2 ^ 53 -> 0 < h ->
  exists r,
    py_truediv (py_mul (NInt m) (NInt n)) (NInt h) = inr r /\
    py_int r = Z.quot (m * n) h.
Proof.
  intros Hmn Hh.
  rewrite py_truediv_nonzero.
  - cbn [py_mul]. eexists; split; [reflexivity|].
    cbn [py_int]. now apply trunc_binary64_div.
  - cbn [to_Q]. intros E. unfold Qeq in E. cbn in E. lia.
Qed.

(** Rounding and truncation are symmetric about zero: negating the input of
    a scaling negates its integer result. *)
Lemma scaled_neg (a x b : num) :
  ~ (to_Q b == 0)%Q ->
  exists r r',
    py_truediv (py_mul a x) b = inr r /\
    py_truediv (py_mul a (py_neg x)) b = inr r' /\
    py_int r' = - py_int r.
Proof.
  intros Hnz. rewrite !py_truediv_nonzero by exact Hnz.
  do 2 eexists. split; [reflexivity|]. split; [reflexivity|].
  cbn [py_int]. rewrite <- Qtrunc_opp. apply Qtrunc_comp.
  rewrite <- binary64_opp.
  match goal with
  | |- (binary64 ?u == binary64 ?v)%Q =>
      assert (E : (u == v)%Q); [|now rewrite (binary64_comp _ _ E)]
  end.
  assert (Emixed : (binary64 (float_of a * float_of (py_neg x))
                    == - binary64 (float_of a * float_of x))%Q).
  { rewrite <- binary64_opp.
    rewrite (binary64_comp (float_of a * float_of (py_neg x))
               (- (float_of a * float_of x)));
      [reflexivity | rewrite float_of_neg; ring]. }
  destruct a as [m|qa], x as [n|qx]; cbn [py_mul py_neg];
    try (destruct b; cbn [float_of py_neg] in *; rewrite Emixed;
         unfold Qdiv; ring).
  assert (Eint : (binary64 (inject_Z (m * - n))
                  == - binary64 (inject_Z (m * n)))%Q).
  { rewrite <- binary64_opp.
    rewrite (binary64_comp (inject_Z (m * - n)) (- inject_Z (m * n)));
      [reflexivity | now rewrite Z.mul_opp_r, inject_Z_opp]. }
  destruct b as [h|qb]; cbn [float_of].
  - rewrite Z.mul_opp_r, inject_Z_opp. unfold Qdiv. ring.
  - rewrite Eint. unfold Qdiv. ring.
Qed.

(** ** Reading the profiles *)

Section Profiles.

Context {B : Type} (w : world).

Lemma bind_lift_inr {A : Type} (a : A) (k : A -> M B) :
  (x <- lift (inr a) ;; k x) w = k a w.
Proof. reflexivity. Qed.

Lemma bind_get_velocityparams (vp : velocity_profile)
    (k : velocity_profile -> M B) :
  velocityparams (self w) = Some vp ->
  (x <- get_velocityparams ;; k x) w = k vp w.
Proof. intros H. unfold bind, get_velocityparams. now rewrite H. Qed.

Lemma bind_get_angleparams (ap : angle_profile)
    (k : angle_profile -> M B) :
  angleparams (self w) = Some ap ->
  (x <- get_angleparams ;; k x) w = k ap w.
Proof. intros H. unfold bind, get_angleparams. now rewrite H. Qed.

End Profiles.

(** ** Velocity *)

Section Velocity.

Context (id : pyval) (address : Z) (motor : pyval) (inverted : bool)
        (rc : Roboclaw) (vp : velocity_profile) (w : world).
Hypothesis Hid : check_id id = inr (address, motor, inverted).
Hypothesis Hrc : roboclaw (self w) = Some rc.
Hypothesis Hvp : velocityparams (self w) = Some vp.

Lemma velocity_rejected (v : num) :
  100 < Z.abs (py_int v) ->
  velocity id v w
  = (inl (OutOfRange (Format "Velocity percentage {} exceeds maximum of 100"
                             [of_num v])), w).
Proof.
  intros Hv. unfold velocity.
  rewrite (guards_pass _ _ _ _ _ _ rc Hid Hrc).
  replace (100 <? Z.abs (py_int v)) with true
    by (symmetry; apply Z.ltb_lt; exact Hv).
  reflexivity.
Qed.

(** Past the range check, [velocity] issues one call, whose qpps is the
    integer part of the quotient [r]. *)
Lemma velocity_run (v r : num) :
  Z.abs (py_int v) <= 100 ->
  py_truediv (py_mul (v_maxVelocity vp) v) (NInt 100) = inr r ->
  let qpps := if inverted then - py_int r else py_int r in
  let c := by_channel motor (SpeedAccelM1 address (v_acceleration vp) qpps)
                            (SpeedAccelM2 address (v_acceleration vp) qpps) in
  velocity id v w
  = (apiset (write_reply rc (issued w) c)
            (Format "Velocity {} acceleration {} on RoboClaw M{}@{}"
                    [PInt qpps; of_num (v_acceleration vp); motor;
                     PInt address]),
     after w [c]).
Proof.
  intros Hv Hr qpps c. unfold velocity.
  rewrite (guards_pass _ _ _ _ _ _ rc Hid Hrc).
  replace (100 <? Z.abs (py_int v)) with false
    by (symmetry; apply Z.ltb_ge; exact Hv).
  rewrite (bind_get_velocityparams w vp _ Hvp).
  rewrite Hr, bind_lift_inr. cbv beta zeta.
  rewrite (bind_get_velocityparams w vp _ Hvp).
  rewrite (dispatch_write rc w motor _ _ _ Hrc).
  reflexivity.
Qed.

End Velocity.

(** C2, amended.  On a connected wrapper and a validated identifier, for
    every number v with |v| <= 100 [velocity] issues exactly one
    speed-with-acceleration call, of the identifier's channel, with the
    velocity profile's acceleration and with qpps equal to
    int(maxVelocity*v/100), negated exactly when the identifier is inverted:
    the product is rounded to a float, so is its quotient by 100, and the
    fraction is cut off, not rounded to the nearest integer.  For an integer
    maxVelocity M and an integer v = n this is the integer quotient of M*n by
    100, truncated toward zero.  maxVelocity is in range (an int below 2^53
    in magnitude, or a finite float), so is the product (of two ints: below
    2^53 in magnitude; else: finite).  [velocity(id, 150)] fails with
    [OutOfRange] and issues no call. *)
Theorem velocity_qpps (id : pyval) (address : Z) (motor : pyval)
    (inverted : bool) (rc : Roboclaw) (vp : velocity_profile) (w : world)
    (v : num) :
  check_id id = inr (address, motor, inverted) ->
  roboclaw (self w) = Some rc ->
  velocityparams (self w) = Some vp ->
  let maxVelocity := v_maxVelocity vp in
  let magnitude :=
    Qtrunc (binary64 (binary64 (to_Q maxVelocity * to_Q v) / inject_Z 100)) in
  let qpps := if inverted then - magnitude else magnitude in
  let c := by_channel motor (SpeedAccelM1 address (v_acceleration vp) qpps)
                            (SpeedAccelM2 address (v_acceleration vp) qpps) in
  ((Qabs (to_Q v) <= inject_Z 100)%Q ->
   in_range maxVelocity ->
   (forall M n, maxVelocity = NInt M -> v = NInt n ->
                Z.abs (M * n) < 2 ^ 53) ->
   finite (to_Q maxVelocity * to_Q v) ->
   (exists res, velocity id v w = (res, after w [c]) /\
                write_outcome rc w c res) /\
   (forall M n, maxVelocity = NInt M -> v = NInt n ->
                magnitude = Z.quot (M * n) 100)) /\
  (exists msg, velocity id (NInt 150) w = (inl (OutOfRange msg), w)).
Proof.
  intros Hid Hrc Hvp maxVelocity magnitude qpps c. split.
  - intros Hv HM Hprod _.
    apply py_int_abs_le in Hv.
    destruct (scaled_general maxVelocity v (NInt 100) HM
                (accepted_in_range v Hv) eq_refl Hprod)
      as (r & Hr & Hval); [discriminate|].
    pose proof (velocity_run id address motor inverted rc vp w Hid Hrc Hvp
                  v r Hv Hr) as Hrun.
    cbv zeta in Hrun. rewrite Hval in Hrun.
    change (to_Q (NInt 100)) with (inject_Z 100) in Hrun.
    fold magnitude qpps c in Hrun. split.
    + rewrite Hrun. eexists; split; [reflexivity|]. apply apiset_outcome.
    + intros M n EM En. unfold magnitude. rewrite EM, En. cbn [to_Q].
      apply scaled_closed_form; [now apply Hprod | lia].
  - eexists.
    apply (velocity_rejected id address motor inverted rc w Hid Hrc).
    reflexivity.
Qed.

Lemma velocity_qpps_witness :
  (exists res,
     velocity Sample.second_motor_inverted (NFloat (323 # 10)) Sample.thousand
     = (res, after Sample.thousand [SpeedAccelM2 129 (NInt 2400) (-322)])) /\
  (exists res,
     velocity Sample.first_motor (NInt (-33))
       (Sample.connected Sample.obliging)
     = (res, after (Sample.connected Sample.obliging)
               [SpeedAccelM1 128 (NInt 2400) (-407)])).
Proof.
  split.
  - destruct (velocity_qpps Sample.second_motor_inverted 129 (PInt 2) true
                Sample.obliging Sample.thousand_cfg Sample.thousand
                (NFloat (323 # 10)) eq_refl eq_refl eq_refl) as [Hin _].
    destruct Hin as [(res & Hrun & _) _].
    + vm_compute. discriminate.
    + reflexivity.
    + intros M n _ H. discriminate H.
    + vm_compute. reflexivity.
    + exists res. exact Hrun.
  - destruct (velocity_qpps Sample.first_motor 128 (PInt 1) false
                Sample.obliging Sample.velocity_cfg
                (Sample.connected Sample.obliging)
                (NInt (-33)) eq_refl eq_refl eq_refl) as [Hin _].
    destruct Hin as [(res & Hrun & _) Hclosed].
    + vm_compute. discriminate.
    + reflexivity.
    + intros M n [= <-] [= <-]. reflexivity.
    + vm_compute. reflexivity.
    + exists res. rewrite Hrun.
      now rewrite (Hclosed 1234 (-33) eq_refl eq_refl).
Defined.

(** C2 as worded fails at v = 2 with maxVelocity = 1234: the call carries
    qpps 24, where round(1234*2/100) = round(24.68) is 25. *)
Lemma velocity_not_rounded :
  velocity Sample.first_motor (NInt 2) (Sample.connected Sample.obliging)
  = (inr tt, after (Sample.connected Sample.obliging)
               [SpeedAccelM1 128 (NInt 2400) 24]) /\
  spec_qpps (v_maxVelocity Sample.velocity_cfg) (NInt 2) = 25 /\
  issued (snd (velocity Sample.first_motor (NInt 2)
                 (Sample.connected Sample.obliging)))
  <> [SpeedAccelM1 128 (NInt 2400)
        (spec_qpps (v_maxVelocity Sample.velocity_cfg) (NInt 2))].
Proof.
  split; [vm_compute; reflexivity|]. split; [reflexivity|].
  vm_compute. discriminate.
Qed.

(** ** Angle *)

(** One degree past the hardstop is out of range: always for an integer
    hardstop, and for a float as long as adding 1 is not lost to rounding. *)
Lemma past_hardstop (h : num) :
  (forall q, h = NFloat q -> (binary64 q + 1 < pow2 53)%Q) ->
  py_gt (py_abs (py_add h (NInt 1))) h = true.
Proof.
  destruct h as [z|q]; intros Hq.
  - cbn [py_add py_abs py_gt]. apply Z.ltb_lt. lia.
  - specialize (Hq q eq_refl).
    apply py_gt_spec. rewrite to_Q_abs. cbn [py_add float_of to_Q].
    set (x := binary64 q) in *.
    assert (E : (x + binary64 (inject_Z 1) == x + 1)%Q)
      by (rewrite binary64_int by reflexivity; reflexivity).
    rewrite (binary64_comp _ _ E).
    pose proof (Qabs_nonneg (binary64 (x + 1))) as Hnonneg.
    destruct (Qlt_le_dec x 0) as [Hneg | Hpos]; [lra|].
    pose proof (binary64_error (x + 1)) as Herr.
    apply Qabs_Qle_condition in Herr.
    assert (Hsmall : binade (Qred (x + 1)) <= 0).
    { apply binade_small.
      - rewrite Qred_correct. intros Z. lra.
      - rewrite Qred_correct, Qabs_pos by lra. exact Hq. }
    apply pow2_le in Hsmall. change (pow2 0) with 1%Q in Hsmall.
    pose proof (Qle_Qabs (binary64 (x + 1))) as Habs.
    lra.
Qed.

Section Angle.

Context (id : pyval) (address : Z) (motor : pyval) (inverted : bool)
        (rc : Roboclaw) (ap : angle_profile) (w : world).
Hypothesis Hid : check_id id = inr (address, motor, inverted).
Hypothesis Hrc : roboclaw (self w) = Some rc.
Hypothesis Hap : angleparams (self w) = Some ap.

Lemma angle_rejected (d : num) :
  py_gt (py_abs d) (hardstop_angle (a_hardstop ap)) = true ->
  angle id d w
  = (inl (OutOfRange
            (Format "Steering angle {} exceeds maximum of {} degrees off center"
                    [of_num d; of_num (hardstop_angle (a_hardstop ap))])), w).
Proof.
  intros Hd. unfold angle.
  rewrite (guards_pass _ _ _ _ _ _ rc Hid Hrc).
  repeat (rewrite (bind_get_angleparams w ap _ Hap); cbv beta zeta).
  now rewrite Hd.
Qed.

(** Past the range check, [angle] issues one call, whose position is the
    integer part of the quotient [r]. *)
Lemma angle_run (d r : num) :
  py_gt (py_abs d) (hardstop_angle (a_hardstop ap)) = false ->
  py_truediv (py_mul (hardstop_count (a_hardstop ap)) d)
             (hardstop_angle (a_hardstop ap)) = inr r ->
  let position := if inverted then - py_int r else py_int r in
  let c :=
    by_channel motor
      (SpeedAccelDeccelPositionM1 address (a_accel ap) (a_speed ap)
         (a_decel ap) position 1)
      (SpeedAccelDeccelPositionM2 address (a_accel ap) (a_speed ap)
         (a_decel ap) position 1) in
  angle id d w
  = (apiset (write_reply rc (issued w) c)
            (Format "Position {} via {}/{}/{} on RoboClaw M{}@{}"
                    [PInt position; of_num (a_accel ap); of_num (a_speed ap);
                     of_num (a_decel ap); motor; PInt address]),
     after w [c]).
Proof.
  intros Hd Hr position c. unfold angle.
  rewrite (guards_pass _ _ _ _ _ _ rc Hid Hrc).
  repeat (rewrite (bind_get_angleparams w ap _ Hap); cbv beta zeta).
  rewrite Hd, Hr, bind_lift_inr. cbv beta zeta.
  rewrite (bind_get_angleparams w ap _ Hap).
  rewrite (dispatch_write rc w motor _ _ _ Hrc).
  reflexivity.
Qed.

End Angle.

(** C3, amended.  On a connected wrapper with a positive hardstop angle and
    a validated identifier, for every d with |d| <= hardstop_angle [angle]
    issues exactly one position-move call, of the identifier's channel, with
    the angle profile's acceleration, cruise speed and deceleration, with
    the immediate-execution flag, and with position equal to
    int(hardstop_count*d/hardstop_angle), negated exactly when the
    identifier is inverted: the product is rounded to a float, so is the
    quotient, and the fraction is cut off, not rounded to the nearest
    integer.  For integers C, n and H this is the integer quotient of C*n by
    H, truncated toward zero.  The numbers are in range (an int below 2^53
    in magnitude, as is the product of two ints; the float product and
    quotient finite).  [angle(id, hardstop_angle + 1)] fails with
    [OutOfRange] and issues no call, for an integer hardstop angle and for a
    float one below 2^53 - 1 (beyond, adding 1 to a float is lost to
    rounding). *)
Theorem angle_position (id : pyval) (address : Z) (motor : pyval)
    (inverted : bool) (rc : Roboclaw) (ap : angle_profile) (w : world)
    (d : num) :
  check_id id = inr (address, motor, inverted) ->
  roboclaw (self w) = Some rc ->
  angleparams (self w) = Some ap ->
  let hardstopangle := hardstop_angle (a_hardstop ap) in
  let hardstopcount := hardstop_count (a_hardstop ap) in
  let magnitude :=
    Qtrunc (binary64 (binary64 (to_Q hardstopcount * to_Q d)
                      / to_Q hardstopangle)) in
  let position := if inverted then - magnitude else magnitude in
  let c :=
    by_channel motor
      (SpeedAccelDeccelPositionM1 address (a_accel ap) (a_speed ap)
         (a_decel ap) position 1)
      (SpeedAccelDeccelPositionM2 address (a_accel ap) (a_speed ap)
         (a_decel ap) position 1) in
  ((0 < to_Q hardstopangle)%Q ->
   (Qabs (to_Q d) <= to_Q hardstopangle)%Q ->
   in_range hardstopcount -> in_range d -> in_range hardstopangle ->
   (forall C n, hardstopcount = NInt C -> d = NInt n ->
                Z.abs (C * n) < 2 ^ 53) ->
   finite (to_Q hardstopcount * to_Q d) ->
   finite (binary64 (to_Q hardstopcount * to_Q d) / to_Q hardstopangle) ->
   (exists res, angle id d w = (res, after w [c]) /\
                write_outcome rc w c res) /\
   (forall C n H, hardstopcount = NInt C -> d = NInt n ->
                  hardstopangle = NInt H ->
                  magnitude = Z.quot (C * n) H)) /\
  ((forall q, hardstopangle = NFloat q -> (binary64 q + 1 < pow2 53)%Q) ->
   exists msg, angle id (py_add hardstopangle (NInt 1)) w
               = (inl (OutOfRange msg), w)).
Proof.
  intros Hid Hrc Hap hardstopangle hardstopcount magnitude position c.
  split.
  - intros Hpos Hd HC Hx HH Hprod _ _.
    assert (Hnz : ~ (to_Q hardstopangle == 0)%Q)
      by (intros E; rewrite E in Hpos; discriminate Hpos).
    destruct (scaled_general hardstopcount d hardstopangle HC Hx HH Hprod Hnz)
      as (r & Hr & Hval).
    assert (Hin : py_gt (py_abs d) hardstopangle = false)
      by (apply py_gt_false; rewrite to_Q_abs; exact Hd).
    pose proof (angle_run id address motor inverted rc ap w Hid Hrc Hap
                  d r Hin Hr) as Hrun.
    cbv zeta in Hrun. rewrite Hval in Hrun.
    fold hardstopcount hardstopangle in Hrun.
    fold magnitude position c in Hrun. split.
    + rewrite Hrun. eexists; split; [reflexivity|]. apply apiset_outcome.
    + intros C n H EC En EH. unfold magnitude. rewrite EC, En, EH.
      cbn [to_Q]. apply scaled_closed_form; [now apply Hprod|].
      rewrite EH in Hpos. cbn [to_Q] in Hpos.
      now rewrite <- (Zlt_Qlt 0) in Hpos.
  - intros Hsmall. eexists.
    apply (angle_rejected id address motor inverted rc ap w Hid Hrc Hap).
    now apply past_hardstop.
Qed.

Lemma angle_position_witness :
  (exists res,
     angle Sample.second_motor_inverted (NFloat (819 # 100))
       (Sample.connected Sample.obliging)
     = (res, after (Sample.connected Sample.obliging)
               [SpeedAccelDeccelPositionM2 129 (NInt 600) (NInt 900)
                  (NInt 700) (-181) 1])) /\
  (exists res,
     angle Sample.first_motor (NInt (-4)) (Sample.connected Sample.obliging)
     = (res, after (Sample.connected Sample.obliging)
               [SpeedAccelDeccelPositionM1 128 (NInt 600) (NInt 900)
                  (NInt 700) (-88) 1])) /\
  (exists msg,
     angle Sample.first_motor (NInt 46) (Sample.connected Sample.obliging)
     = (inl (OutOfRange msg), Sample.connected Sample.obliging)).
Proof.
  split; [|split].
  - destruct (angle_position Sample.second_motor_inverted 129 (PInt 2) true
                Sample.obliging Sample.angle_cfg
                (Sample.connected Sample.obliging) (NFloat (819 # 100))
                eq_refl eq_refl eq_refl) as [Hin _].
    destruct Hin as [(res & Hrun & _) _].
    + reflexivity.
    + vm_compute. discriminate.
    + reflexivity.
    + vm_compute. reflexivity.
    + reflexivity.
    + intros C n _ H. discriminate H.
    + vm_compute. reflexivity.
    + vm_compute. reflexivity.
    + exists res. exact Hrun.
  - destruct (angle_position Sample.first_motor 128 (PInt 1) false
                Sample.obliging Sample.angle_cfg
                (Sample.connected Sample.obliging) (NInt (-4))
                eq_refl eq_refl eq_refl) as [Hin _].
    destruct Hin as [(res & Hrun & _) Hclosed].
    + reflexivity.
    + vm_compute. discriminate.
    + reflexivity.
    + reflexivity.
    + reflexivity.
    + intros C n [= <-] [= <-]. reflexivity.
    + vm_compute. reflexivity.
    + vm_compute. reflexivity.
    + exists res. rewrite Hrun.
      now rewrite (Hclosed 1000 (-4) 45 eq_refl eq_refl eq_refl).
  - destruct (angle_position Sample.first_motor 128 (PInt 1) false
                Sample.obliging Sample.angle_cfg
                (Sample.connected Sample.obliging) (NInt 0)
                eq_refl eq_refl eq_refl) as [_ Hout].
    apply Hout. intros q H. discriminate H.
Defined.

(** C3 as worded fails at 4 degrees with 1000 counts for 45 degrees: the
    call carries position 88, where round(1000*4/45) = round(88.9) is 89.
    And with a hardstop angle of zero, where 0 is the one angle within the
    hardstop, [angle(id, 0)] issues no call: the division raises
    [ZeroDivisionError]. *)
Lemma angle_not_rounded :
  angle Sample.first_motor (NInt 4) (Sample.connected Sample.obliging)
  = (inr tt, after (Sample.connected Sample.obliging)
               [SpeedAccelDeccelPositionM1 128 (NInt 600) (NInt 900)
                  (NInt 700) 88 1]) /\
  spec_position (NInt 1000) (NInt 4) (NInt 45) = 89 /\
  issued (snd (angle Sample.first_motor (NInt 4)
                 (Sample.connected Sample.obliging)))
  <> [SpeedAccelDeccelPositionM1 128 (NInt 600) (NInt 900) (NInt 700)
        (spec_position (NInt 1000) (NInt 4) (NInt 45)) 1] /\
  angle Sample.first_motor (NInt 0) Sample.zero_hardstop
  = (inl ZeroDivisionError, Sample.zero_hardstop).
Proof.
  split; [vm_compute; reflexivity|]. split; [reflexivity|].
  split; [vm_compute; discriminate | reflexivity].
Qed.

(** ** Validation comes first *)

(** C6, amended.  Every operation that takes an identifier, [maxangle]
    apart, validates it before anything else: on a malformed identifier it
    fails with the validator's [InvalidIdentifier] and leaves the wrapper
    and the driver untouched ([init_velocity] and [init_angle] once
    [connect] has stored the profiles).  [maxangle] does not look at its
    identifier and returns the configured hardstop angle. *)
Theorem malformed_id_rejected_first (id : pyval) (e : error) (w : world) :
  check_id id = inl e ->
  (exists msg, e = InvalidIdentifier msg) /\
  version id w = (inl e, w) /\
  (forall p, power_percent id p w = (inl e, w)) /\
  (forall current, set_max_current id current w = (inl e, w)) /\
  (forall params, set_velocity_pid id params w = (inl e, w)) /\
  (forall v, velocity id v w = (inl e, w)) /\
  (forall params limit, set_position_pid id params limit w = (inl e, w)) /\
  (forall d, angle id d w = (inl e, w)) /\
  steer_setzero id w = (inl e, w) /\
  input_voltage id w = (inl e, w) /\
  (forall vp, velocityparams (self w) = Some vp ->
              init_velocity id w = (inl e, w)) /\
  (forall ap, angleparams (self w) = Some ap ->
              init_angle id w = (inl e, w)) /\
  (forall ap, angleparams (self w) = Some ap ->
              maxangle id w = (inr (hardstop_angle (a_hardstop ap)), w)).
Proof.
  intros Hid.
  assert (Hcur : forall current, set_max_current id current w = (inl e, w)).
  { intros current. apply (guards_reject_id _ _ _ _ Hid). }
  repeat match goal with |- _ /\ _ => split end;
    try (intros; now apply (guards_reject_id _ _ _ _ Hid)).
  - now apply check_id_error with id.
  - intros vp Hvp. unfold init_velocity.
    rewrite (bind_get_velocityparams w vp _ Hvp).
    unfold bind. now rewrite Hcur.
  - intros ap Hap. unfold init_angle.
    rewrite (bind_get_angleparams w ap _ Hap).
    unfold bind. now rewrite Hcur.
  - intros ap Hap. unfold maxangle.
    now rewrite (bind_get_angleparams w ap _ Hap).
Qed.

Lemma malformed_id_rejected_first_witness :
  velocity (PTuple [PInt 128; PInt 1]) (NInt 10)
    (Sample.connected Sample.obliging)
  = (inl (InvalidIdentifier
            "RoboClaw motor identifier must have three elements: address, motor number, and whether it is inverted"),
     Sample.connected Sample.obliging) /\
  init_angle (PTuple [PInt 128; PInt 1]) (Sample.connected Sample.obliging)
  = (inl (InvalidIdentifier
            "RoboClaw motor identifier must have three elements: address, motor number, and whether it is inverted"),
     Sample.connected Sample.obliging).
Proof.
  destruct (malformed_id_rejected_first (PTuple [PInt 128; PInt 1]) _
              (Sample.connected Sample.obliging) eq_refl)
    as (_ & _ & _ & _ & _ & Hv & _ & _ & _ & _ & _ & Ha & _).
  split.
  - apply Hv.
  - apply Ha with Sample.angle_cfg. reflexivity.
Defined.

(** C6 as worded fails for [maxangle]: handed [None] as identifier, which
    the validator rejects, it answers the hardstop angle. *)
Lemma maxangle_skips_validation :
  check_id PNone
  = inl (InvalidIdentifier "RoboClaw motor identifier must be a tuple") /\
  maxangle PNone (Sample.connected Sample.obliging)
  = (inr (NInt 45), Sample.connected Sample.obliging).
Proof. split; reflexivity. Qed.

(** ** The three configuration steps *)

Lemma after_after (w : world) (l1 l2 : list call) :
  after (after w l1) l2 = after w (l1 ++ l2).
Proof. unfold after; cbn. now rewrite app_assoc. Qed.

Section Steps.

Context (id : pyval) (address : Z) (motor : pyval) (inverted : bool)
        (rc : Roboclaw) (w : world).
Hypothesis Hid : check_id id = inr (address, motor, inverted).
Hypothesis Hrc : roboclaw (self w) = Some rc.

Lemma set_max_current_run (current : num) :
  let c := by_channel motor (SetM1MaxCurrent address current)
                            (SetM2MaxCurrent address current) in
  set_max_current id current w
  = (apiset (write_reply rc (issued w) c) default_setter, after w [c]).
Proof.
  intros c. unfold set_max_current.
  rewrite (guards_pass _ _ _ _ _ _ rc Hid Hrc). cbv zeta.
  now rewrite (dispatch_write rc w motor _ _ _ Hrc).
Qed.

Lemma set_velocity_pid_run (params : velocity_pid) :
  let c := by_channel motor
             (SetM1VelocityPID address (vel_p params) (vel_i params)
                (vel_d params) (vel_qpps params))
             (SetM2VelocityPID address (vel_p params) (vel_i params)
                (vel_d params) (vel_qpps params)) in
  exists context,
    set_velocity_pid id params w
    = (apiset (write_reply rc (issued w) c) context, after w [c]).
Proof.
  intros c. unfold set_velocity_pid.
  rewrite (guards_pass _ _ _ _ _ _ rc Hid Hrc). cbv zeta.
  rewrite (dispatch_write rc w motor _ _ _ Hrc).
  eexists; reflexivity.
Qed.

Lemma set_position_pid_run (params : position_pid) (limit : num) :
  let c := by_channel motor
             (SetM1PositionPID address (pos_p params) (pos_i params)
                (pos_d params) (pos_maxi params) (pos_deadzone params)
                (py_neg limit) limit)
             (SetM2PositionPID address (pos_p params) (pos_i params)
                (pos_d params) (pos_maxi params) (pos_deadzone params)
                (py_neg limit) limit) in
  exists context,
    set_position_pid id params limit w
    = (apiset (write_reply rc (issued w) c) context, after w [c]).
Proof.
  intros c. unfold set_position_pid.
  rewrite (guards_pass _ _ _ _ _ _ rc Hid Hrc). cbv zeta.
  rewrite (dispatch_write rc w motor _ _ _ Hrc).
  eexists; reflexivity.
Qed.

End Steps.

(** ** Calibration sequences *)

Lemma apiset_false (context : message) :
  apiset false context = inl (DriverError context None).
Proof. reflexivity. Qed.

Lemma apiset_true (context : message) : apiset true context = inr tt.
Proof. reflexivity. Qed.

(** C7.  On a connected wrapper and a validated identifier, [init_velocity]
    issues the max-current call and then the velocity-PID call, both with
    the velocity profile's values; [init_angle] issues the max-current call,
    the velocity-PID call and then the position-PID call with the angle
    profile's values, whose two limits are the negated hardstop count and
    the hardstop count itself, in this order.  When the driver refuses a
    step the sequence stops there with a
    [DriverError]: the calls issued are exactly the steps up to the refused
    one, nothing is issued to undo them. *)
Theorem calibration_sequences (id : pyval) (address : Z) (motor : pyval)
    (inverted : bool) (rc : Roboclaw) (w : world) :
  check_id id = inr (address, motor, inverted) ->
  roboclaw (self w) = Some rc ->
  (forall vp, velocityparams (self w) = Some vp ->
     let pid := v_velocity vp in
     let c1 := by_channel motor (SetM1MaxCurrent address (v_maxCurrent vp))
                                (SetM2MaxCurrent address (v_maxCurrent vp)) in
     let c2 := by_channel motor
                 (SetM1VelocityPID address (vel_p pid) (vel_i pid) (vel_d pid)
                    (vel_qpps pid))
                 (SetM2VelocityPID address (vel_p pid) (vel_i pid) (vel_d pid)
                    (vel_qpps pid)) in
     (write_reply rc (issued w) c1 = false ->
      exists context,
        init_velocity id w = (inl (DriverError context None), after w [c1])) /\
     (write_reply rc (issued w) c1 = true ->
      exists res, init_velocity id w = (res, after w [c1; c2]) /\
                  write_outcome rc (after w [c1]) c2 res)) /\
  (forall ap, angleparams (self w) = Some ap ->
     let pid := a_velocity ap in
     let pos := a_position ap in
     let limit := hardstop_count (a_hardstop ap) in
     let lower := match limit with
                  | NInt n => NInt (- n)
                  | NFloat q => NFloat (- q)
                  end in
     let c1 := by_channel motor (SetM1MaxCurrent address (a_maxCurrent ap))
                                (SetM2MaxCurrent address (a_maxCurrent ap)) in
     let c2 := by_channel motor
                 (SetM1VelocityPID address (vel_p pid) (vel_i pid) (vel_d pid)
                    (vel_qpps pid))
                 (SetM2VelocityPID address (vel_p pid) (vel_i pid) (vel_d pid)
                    (vel_qpps pid)) in
     let c3 := by_channel motor
                 (SetM1PositionPID address (pos_p pos) (pos_i pos) (pos_d pos)
                    (pos_maxi pos) (pos_deadzone pos) lower limit)
                 (SetM2PositionPID address (pos_p pos) (pos_i pos) (pos_d pos)
                    (pos_maxi pos) (pos_deadzone pos) lower limit) in
     (write_reply rc (issued w) c1 = false ->
      exists context,
        init_angle id w = (inl (DriverError context None), after w [c1])) /\
     (write_reply rc (issued w) c1 = true ->
      write_reply rc (issued (after w [c1])) c2 = false ->
      exists context,
        init_angle id w
        = (inl (DriverError context None), after w [c1; c2])) /\
     (write_reply rc (issued w) c1 = true ->
      write_reply rc (issued (after w [c1])) c2 = true ->
      exists res, init_angle id w = (res, after w [c1; c2; c3]) /\
                  write_outcome rc (after w [c1; c2]) c3 res)).
Proof.
  intros Hid Hrc. split.
  - intros vp Hvp pid c1 c2. subst pid. unfold init_velocity.
    rewrite (bind_get_velocityparams w vp _ Hvp).
    rewrite (bind_run _ _ _ _ _
               (set_max_current_run id address motor inverted rc w Hid Hrc _)).
    fold c1. split; intros H1; rewrite H1.
    + rewrite apiset_false. eexists; reflexivity.
    + rewrite apiset_true.
      rewrite (bind_get_velocityparams (after w [c1]) vp _ Hvp).
      destruct (set_velocity_pid_run id address motor inverted rc
                  (after w [c1]) Hid Hrc (v_velocity vp)) as [context ->].
      fold c2. rewrite after_after.
      eexists; split; [reflexivity|]. apply apiset_outcome.
  - intros ap Hap pid pos limit lower c1 c2 c3.
    change lower with (py_neg limit) in c3. subst pid pos limit.
    clear lower. unfold init_angle.
    rewrite (bind_get_angleparams w ap _ Hap).
    rewrite (bind_run _ _ _ _ _
               (set_max_current_run id address motor inverted rc w Hid Hrc _)).
    fold c1.
    destruct (set_velocity_pid_run id address motor inverted rc
                (after w [c1]) Hid Hrc (a_velocity ap)) as [context2 Hstep2].
    fold c2 in Hstep2. rewrite after_after in Hstep2. cbn [app] in Hstep2.
    destruct (set_position_pid_run id address motor inverted rc
                (after w [c1; c2]) Hid Hrc (a_position ap)
                (hardstop_count (a_hardstop ap))) as [context3 Hstep3].
    fold c3 in Hstep3. rewrite after_after in Hstep3. cbn [app] in Hstep3.
    split; [|split]; intros H1; rewrite H1.
    + rewrite apiset_false. eexists; reflexivity.
    + intros H2. rewrite apiset_true.
      rewrite (bind_run _ _ _ _ _ Hstep2), H2, apiset_false.
      eexists; reflexivity.
    + intros H2. rewrite apiset_true.
      rewrite (bind_run _ _ _ _ _ Hstep2), H2, apiset_true.
      cbv beta iota. rewrite Hstep3.
      eexists; split; [reflexivity|]. apply apiset_outcome.
Qed.

Lemma calibration_sequences_witness :
  (exists res,
     init_velocity Sample.first_motor (Sample.connected Sample.obliging)
     = (res, after (Sample.connected Sample.obliging)
               [SetM1MaxCurrent 128 (NInt 300);
                SetM1VelocityPID 128 (NInt 3000) (NInt 500) (NInt 0)
                  (NInt 1800)])) /\
  (exists context,
     init_angle Sample.first_motor (Sample.connected Sample.no_velocity_pid)
     = (inl (DriverError context None),
        after (Sample.connected Sample.no_velocity_pid)
          [SetM1MaxCurrent 128 (NInt 200);
           SetM1VelocityPID 128 (NInt 3000) (NInt 500) (NInt 0)
             (NInt 1800)])) /\
  (exists res,
     init_angle Sample.first_motor (Sample.connected Sample.obliging)
     = (res, after (Sample.connected Sample.obliging)
               [SetM1MaxCurrent 128 (NInt 200);
                SetM1VelocityPID 128 (NInt 3000) (NInt 500) (NInt 0)
                  (NInt 1800);
                SetM1PositionPID 128 (NInt 2000) (NInt 4) (NInt 100)
                  (NInt 50) (NInt 5) (NInt (-1000)) (NInt 1000)])).
Proof.
  split; [|split].
  - destruct (calibration_sequences Sample.first_motor 128 (PInt 1) false
                Sample.obliging (Sample.connected Sample.obliging)
                eq_refl eq_refl) as [Hv _].
    destruct (Hv Sample.velocity_cfg eq_refl) as [_ Hok].
    destruct (Hok eq_refl) as (res & Hrun & _).
    exists res. exact Hrun.
  - destruct (calibration_sequences Sample.first_motor 128 (PInt 1) false
                Sample.no_velocity_pid
                (Sample.connected Sample.no_velocity_pid)
                eq_refl eq_refl) as [_ Ha].
    destruct (Ha Sample.angle_cfg eq_refl) as (_ & Hstop & _).
    exact (Hstop eq_refl eq_refl).
  - destruct (calibration_sequences Sample.first_motor 128 (PInt 1) false
                Sample.obliging (Sample.connected Sample.obliging)
                eq_refl eq_refl) as [_ Ha].
    destruct (Ha Sample.angle_cfg eq_refl) as (_ & _ & Hall).
    destruct (Hall eq_refl eq_refl) as (res & Hrun & _).
    exists res. exact Hrun.
Defined.

(** ** Context of the errors *)

(** C10.  When the driver refuses the max-current call, [set_max_current]
    fails with a [DriverError] whose context is the adapter's default
    "RoboClaw API Setter"; when the battery-voltage read comes back with the
    failure flag, [input_voltage] fails with a [DriverError] whose context
    is the default "RoboClaw API Getter".  The message each operation
    composes is a different one and is not part of the error. *)
Theorem default_context_on_failure (id : pyval) (address : Z) (motor : pyval)
    (inverted : bool) (rc : Roboclaw) (w : world) :
  check_id id = inr (address, motor, inverted) ->
  roboclaw (self w) = Some rc ->
  (forall current,
     let c := by_channel motor (SetM1MaxCurrent address current)
                               (SetM2MaxCurrent address current) in
     write_reply rc (issued w) c = false ->
     set_max_current id current w
     = (inl (DriverError (Format "RoboClaw API Setter" []) None),
        after w [c]) /\
     Format "RoboClaw API Setter" []
     <> Format "Restricting RoboClaw M{}@{} to {} * 10 mA"
               [motor; PInt address; of_num current]) /\
  (forall status rest,
     read_reply rc (issued w) (ReadMainBatteryVoltage address)
     = status :: rest ->
     failure_flag status ->
     input_voltage id w
     = (inl (DriverError (Format "RoboClaw API Getter" [])
                         (Some (status :: rest))),
        after w [ReadMainBatteryVoltage address]) /\
     Format "RoboClaw API Getter" []
     <> Format "Read voltage of RoboClaw @{}" [PInt address]).
Proof.
  intros Hid Hrc. split.
  - intros current c Hrefused. split; [|discriminate].
    rewrite (set_max_current_run id address motor inverted rc w Hid Hrc).
    fold c. now rewrite Hrefused.
  - intros status rest Hread Hflag. split; [|discriminate].
    unfold input_voltage.
    rewrite (guards_pass _ _ _ _ _ _ rc Hid Hrc). cbv zeta.
    unfold bind, get_roboclaw, read, lift. rewrite Hrc, Hread.
    now rewrite (apiget_failure _ _ _ Hflag).
Qed.

Lemma default_context_on_failure_witness :
  set_max_current Sample.second_motor_inverted (NInt 300)
    (Sample.connected Sample.refusing)
  = (inl (DriverError (Format "RoboClaw API Setter" []) None),
     after (Sample.connected Sample.refusing)
       [SetM2MaxCurrent 129 (NInt 300)]) /\
  input_voltage Sample.second_motor_inverted
    (Sample.connected Sample.refusing)
  = (inl (DriverError (Format "RoboClaw API Getter" [])
                      (Some [PInt 0; PInt 0])),
     after (Sample.connected Sample.refusing) [ReadMainBatteryVoltage 129]).
Proof.
  destruct (default_context_on_failure Sample.second_motor_inverted 129
              (PInt 2) true Sample.refusing
              (Sample.connected Sample.refusing) eq_refl eq_refl)
    as [Hset Hget].
  split.
  - exact (proj1 (Hset (NInt 300) eq_refl)).
  - exact (proj1 (Hget (PInt 0) [PInt 0] eq_refl eq_refl)).
Defined.

(** ** Before the connection *)

(** Once the profiles are stored, a missing handle is reported as such and
    nothing reaches a driver. *)
Lemma init_angle_without_handle (id : pyval) (t : motor_id)
    (ap : angle_profile) (w : world) :
  check_id id = inr t ->
  roboclaw (self w) = None ->
  angleparams (self w) = Some ap ->
  init_angle id w = (inl (NotConnected "RoboClaw not yet connected"), w).
Proof.
  intros Hid Hrc Hap. unfold init_angle.
  rewrite (bind_get_angleparams w ap _ Hap).
  assert (Hfirst : set_max_current id (a_maxCurrent ap) w
                   = (inl (NotConnected "RoboClaw not yet connected"), w)).
  { apply (guards_reject_handle id w _ t Hid Hrc). }
  now rewrite (bind_run _ _ _ _ _ Hfirst).
Qed.

(** A [connect] whose port does not open stores the profiles and no
    handle; from there [init_angle] reports the missing connection. *)
Lemma connect_unplugged :
  (exists msg,
     connect Sample.unplugged Sample.fresh
     = (inl (ConnectionError msg), Sample.stranded)) /\
  init_angle Sample.first_motor Sample.stranded
  = (inl (NotConnected "RoboClaw not yet connected"), Sample.stranded).
Proof.
  split; [eexists; lazy; reflexivity|].
  now apply init_angle_without_handle
    with (128, PInt 1, false) Sample.angle_cfg.
Qed.

(** C8, on the code.  On a wrapper on which [connect] has not run,
    [init_angle] stops at its first statement, the read of
    [self.angleparams]: it fails with [AttributeError], for every
    identifier, and issues no driver call. *)
Theorem init_angle_on_fresh_wrapper (id : pyval) (log : list call) :
  init_angle id {| self := __init__; issued := log |}
  = (inl (AttributeError "angleparams"),
     {| self := __init__; issued := log |}).
Proof. reflexivity. Qed.

(** ** The range check of [velocity] *)



(** * Further properties *)

(** ** Footprint of the operations *)

Ltac run_all :=
  unfold version, power_percent, set_max_current, set_velocity_pid,
    init_velocity, velocity, set_position_pid, init_angle, maxangle, angle,
    steer_setzero, input_voltage;
  unfold set_max_current, set_velocity_pid, set_position_pid;
  unfold bind, lift, ret, raise, check_roboclaw, get_roboclaw,
    get_velocityparams, get_angleparams, write, read;
  cbn [self issued fst snd].

Ltac split_cases :=
  repeat match goal with
         | |- context [match ?x with _ => _ end] =>
             lazymatch x with
             | context [match _ with _ => _ end] => fail
             | _ => destruct x eqn:?
             end; cbn [self issued fst snd]
         end.

Ltac appended :=
  split; [reflexivity|];
  first
    [ exists []; rewrite app_nil_r; split; [reflexivity | cbn; lia]
    | eexists [_]; split; [reflexivity | cbn; lia]
    | eexists [_; _]; rewrite <- ?app_assoc; split; [reflexivity | cbn; lia]
    | eexists [_; _; _]; rewrite <- ?app_assoc;
      split; [reflexivity | cbn; lia] ].

(** X1.  Whatever the identifier, the value and the state of the wrapper,
    an operation never changes the attributes of the wrapper and never
    rewrites the calls already issued: it appends at most one call
    ([init_velocity] at most two, [init_angle] at most three, [maxangle]
    none). *)
Theorem operations_footprint (id : pyval) (x : num) (vpid : velocity_pid)
    (ppid : position_pid) :
  footprint 1 (version id) /\
  footprint 1 (power_percent id x) /\
  footprint 1 (set_max_current id x) /\
  footprint 1 (set_velocity_pid id vpid) /\
  footprint 1 (velocity id x) /\
  footprint 1 (set_position_pid id ppid x) /\
  footprint 1 (angle id x) /\
  footprint 1 (steer_setzero id) /\
  footprint 1 (input_voltage id) /\
  footprint 2 (init_velocity id) /\
  footprint 3 (init_angle id) /\
  footprint 0 (maxangle id).
Proof.
  repeat match goal with |- _ /\ _ => split end.
  all: intros w; run_all; split_cases; appended.
Qed.

Ltac adapter_cases :=
  repeat match goal with
         | H : apiset ?b _ = inl _ |- _ =>
             destruct b; cbn in H; [discriminate H | injection H as <-]
         | H : apiget ?t _ = inl _ |- _ =>
             unfold apiget in H; destruct t as [|? [|? [|? ?]]];
             try destruct (py_eq_int _ 0);
             try discriminate H; injection H as <-
         | H : py_div_10 ?p = inl _ |- _ =>
             destruct p; cbn in H; try discriminate H; injection H as <-
         end.

Ltac clean_case Hfail Hearly :=
  try reflexivity;
  try discriminate Hfail;
  try (injection Hfail as <-);
  try discriminate Hearly;
  adapter_cases;
  try discriminate Hearly;
  try congruence.

(** X2.  An operation that fails with an error of the wrapper's own checks
    ([InvalidIdentifier], [NotConnected], [OutOfRange], a missing attribute,
    a division by zero) has issued no driver call: the state is the one it
    started from.  This also holds for the sequences [init_velocity] and
    [init_angle], which can only fail that way before their first step. *)
Theorem check_errors_issue_nothing (id : pyval) (x : num) (vpid : velocity_pid)
    (ppid : position_pid) :
  fails_clean (version id) /\
  fails_clean (power_percent id x) /\
  fails_clean (set_max_current id x) /\
  fails_clean (set_velocity_pid id vpid) /\
  fails_clean (velocity id x) /\
  fails_clean (set_position_pid id ppid x) /\
  fails_clean (angle id x) /\
  fails_clean (steer_setzero id) /\
  fails_clean (input_voltage id) /\
  fails_clean (init_velocity id) /\
  fails_clean (init_angle id) /\
  fails_clean (maxangle id).
Proof.
  repeat match goal with |- _ /\ _ => split end.
  all: intros w e; run_all; split_cases; intros Hfail Hearly.
  all: clean_case Hfail Hearly.
Qed.

Lemma check_errors_issue_nothing_witness :
  snd (angle Sample.first_motor (NInt 46) (Sample.connected Sample.obliging))
  = Sample.connected Sample.obliging.
Proof.
  destruct (check_errors_issue_nothing Sample.first_motor (NInt 46)
              Sample.pid (a_position Sample.angle_cfg))
    as (_ & _ & _ & _ & _ & _ & Hangle & _).
  apply (Hangle (Sample.connected Sample.obliging)
           (OutOfRange
              (Format "Steering angle {} exceeds maximum of {} degrees off center"
                      [PInt 46; PInt 45]))).
  - reflexivity.
  - reflexivity.
Defined.

(** ** The connection guard *)

(** X3.  With a validated identifier and no handle stored, each of the
    nine single operations fails with [NotConnected] and issues nothing,
    whatever the command value and even when the profiles were never stored;
    so do [init_velocity] and [init_angle] once their profile is stored. *)
Theorem operations_need_connection (id : pyval) (t : motor_id) (w : world)
    (x : num) (vpid : velocity_pid) (ppid : position_pid) :
  check_id id = inr t ->
  roboclaw (self w) = None ->
  version id w = refused w /\
  power_percent id x w = refused w /\
  set_max_current id x w = refused w /\
  set_velocity_pid id vpid w = refused w /\
  velocity id x w = refused w /\
  set_position_pid id ppid x w = refused w /\
  angle id x w = refused w /\
  steer_setzero id w = refused w /\
  input_voltage id w = refused w /\
  (forall vp, velocityparams (self w) = Some vp ->
              init_velocity id w = refused w) /\
  (forall ap, angleparams (self w) = Some ap ->
              init_angle id w = refused w).
Proof.
  intros Hid Hrc. unfold refused.
  assert (Hcur : forall current,
             set_max_current id current w
             = (inl (NotConnected "RoboClaw not yet connected"), w)).
  { intros current. apply (guards_reject_handle id w _ t Hid Hrc). }
  repeat match goal with |- _ /\ _ => split end;
    try (now apply (guards_reject_handle id w _ t Hid Hrc)).
  - intros vp Hvp. unfold init_velocity.
    rewrite (bind_get_velocityparams w vp _ Hvp).
    now rewrite (bind_run _ _ _ _ _ (Hcur _)).
  - intros ap Hap. unfold init_angle.
    rewrite (bind_get_angleparams w ap _ Hap).
    now rewrite (bind_run _ _ _ _ _ (Hcur _)).
Qed.

Lemma operations_need_connection_witness :
  velocity Sample.first_motor (NInt 50) Sample.fresh = refused Sample.fresh /\
  angle Sample.first_motor (NInt 10) Sample.fresh = refused Sample.fresh /\
  init_velocity Sample.first_motor Sample.stranded = refused Sample.stranded.
Proof.
  split; [|split].
  - destruct (operations_need_connection Sample.first_motor (128, PInt 1, false)
                Sample.fresh (NInt 50) Sample.pid
                (a_position Sample.angle_cfg) eq_refl eq_refl)
      as (_ & _ & _ & _ & H & _).
    exact H.
  - destruct (operations_need_connection Sample.first_motor (128, PInt 1, false)
                Sample.fresh (NInt 10) Sample.pid
                (a_position Sample.angle_cfg) eq_refl eq_refl)
      as (_ & _ & _ & _ & _ & _ & H & _).
    exact H.
  - destruct (operations_need_connection Sample.first_motor (128, PInt 1, false)
                Sample.stranded (NInt 10) Sample.pid
                (a_position Sample.angle_cfg) eq_refl eq_refl)
      as (_ & _ & _ & _ & _ & _ & _ & _ & _ & H & _).
    exact (H Sample.velocity_cfg eq_refl).
Defined.

(** ** Profiles that were never stored *)

(** X4.  [init_velocity] and [maxangle] read the stored profile before
    anything else: on a wrapper whose profile attribute was never assigned
    they fail with [AttributeError] for every identifier, a malformed one
    included, and issue nothing. *)
Theorem profiles_read_before_validation (id : pyval) (w : world) :
  (velocityparams (self w) = None ->
   init_velocity id w = (inl (AttributeError "velocityparams"), w)) /\
  (angleparams (self w) = None ->
   maxangle id w = (inl (AttributeError "angleparams"), w)).
Proof.
  split.
  - intros H. unfold init_velocity, bind, get_velocityparams. now rewrite H.
  - intros H. unfold maxangle, bind, get_angleparams. now rewrite H.
Qed.

Lemma profiles_read_before_validation_witness :
  init_velocity PNone Sample.fresh
  = (inl (AttributeError "velocityparams"), Sample.fresh) /\
  maxangle Sample.first_motor Sample.fresh
  = (inl (AttributeError "angleparams"), Sample.fresh).
Proof.
  split.
  - exact (proj1 (profiles_read_before_validation PNone Sample.fresh) eq_refl).
  - exact (proj2 (profiles_read_before_validation Sample.first_motor
                    Sample.fresh) eq_refl).
Defined.

(** ** Connecting *)

(** X5.  When the configured port is "TEST", [connect] succeeds from any
    state without a driver call: it stores the stub as handle and the two
    profiles of the loaded configuration. *)
Theorem connect_simulated (env : collaborators) (w : world) :
  port (cfg_connect (configuration_load env)) = "TEST" ->
  connect env w
  = (inr tt, loaded env (Some (Roboclaw_stub env)) (issued w)).
Proof.
  intros Hport. unfold connect, bind, set_velocityparams, set_angleparams.
  rewrite Hport. reflexivity.
Qed.

Lemma connect_simulated_witness :
  connect {| configuration_load := Sample.config "TEST";
             Roboclaw_stub := Sample.obliging;
             Roboclaw_new := fun _ _ _ _ => Sample.refusing |} Sample.fresh
  = (inr tt, Sample.connected Sample.obliging).
Proof.
  exact (connect_simulated
           {| configuration_load := Sample.config "TEST";
              Roboclaw_stub := Sample.obliging;
              Roboclaw_new := fun _ _ _ _ => Sample.refusing |}
           Sample.fresh eq_refl).
Defined.

(** X6.  For any other port [connect] builds a handle from port, baud
    rate, timeout and retries and issues exactly one [Open] on it.  If that
    succeeds the new handle and the two profiles are stored; if not,
    [connect] fails with [ConnectionError] naming port and baud rate, the
    profiles are stored all the same and the handle attribute keeps the
    value it had. *)
Theorem connect_serial (env : collaborators) (w : world) :
  port (cfg_connect (configuration_load env)) <> "TEST" ->
  (write_reply (new_handle env) (issued w) Open = true ->
   connect env w
   = (inr tt, loaded env (Some (new_handle env)) (issued w ++ [Open]))) /\
  (write_reply (new_handle env) (issued w) Open = false ->
   connect env w
   = (inl (ConnectionError
             (Format "Could not connect to RoboClaw. {} @ {}"
                     [PStr (port (cfg_connect (configuration_load env)));
                      of_num (baudrate (cfg_connect (configuration_load env)))])),
      loaded env (roboclaw (self w)) (issued w ++ [Open]))).
Proof.
  intros Hport. apply String.eqb_neq in Hport.
  unfold connect, bind, set_velocityparams, set_angleparams, write,
    set_roboclaw, raise, new_handle.
  rewrite Hport. cbn [self issued roboclaw velocityparams angleparams].
  split; intros ->; reflexivity.
Qed.

Lemma connect_serial_witness :
  (exists msg,
     connect Sample.unplugged (Sample.connected Sample.obliging)
     = (inl (ConnectionError msg),
        after (Sample.connected Sample.obliging) [Open])).
Proof.
  destruct (connect_serial Sample.unplugged (Sample.connected Sample.obliging))
    as [_ Hfail].
  - discriminate.
  - eexists. rewrite (Hfail eq_refl). reflexivity.
Defined.

(** ** Single commands on a connected wrapper *)

Section Connected.

Context (id : pyval) (address : Z) (motor : pyval) (inverted : bool)
        (rc : Roboclaw) (w : world).
Hypothesis Hid : check_id id = inr (address, motor, inverted).
Hypothesis Hrc : roboclaw (self w) = Some rc.

Lemma steer_setzero_run :
  let c := by_channel motor (SetEncM1 address 0) (SetEncM2 address 0) in
  steer_setzero id w
  = (apiset (write_reply rc (issued w) c)
            (Format "Reset encoder on RoboClaw M{}@{}" [motor; PInt address]),
     after w [c]).
Proof.
  intros c. unfold steer_setzero.
  rewrite (guards_pass _ _ _ _ _ _ rc Hid Hrc). cbv zeta.
  now rewrite (dispatch_write rc w motor _ _ _ Hrc).
Qed.

Lemma version_run :
  version id w
  = (apiget (read_reply rc (issued w) (ReadVersion address))
            (Format "RoboClaw ReadVersion @ {}" [PInt address]),
     after w [ReadVersion address]).
Proof.
  unfold version.
  rewrite (guards_pass _ _ _ _ _ _ rc Hid Hrc).
  unfold bind, get_roboclaw, read, lift. now rewrite Hrc.
Qed.


Lemma power_percent_run (x : num) :
  Z.abs (py_int x) <= 100 ->
  let level :=
    Qfloor (inject_Z 64 + inject_Z (py_int x) * inject_Z 63 / inject_Z 100) in
  let c := by_channel motor (ForwardBackwardM1 address level)
                            (ForwardBackwardM2 address level) in
  power_percent id x w
  = (apiset (write_reply rc (issued w) c)
            (Format "RoboClaw M{}@{} power at {} representing {} percent"
                    [motor; PInt address; PInt level; PInt (py_int x)]),
     after w [c]).
Proof.
  intros Hx level c. unfold power_percent.
  rewrite (guards_pass _ _ _ _ _ _ rc Hid Hrc). cbv zeta.
  replace (100 <? Z.abs (py_int x)) with false
    by (symmetry; apply Z.ltb_ge; exact Hx).
  cbn [py_mul]. rewrite py_truediv_100, bind_lift_inr.
  rewrite power_level_floor by lia. fold level.
  now rewrite (dispatch_write rc w motor _ _ _ Hrc).
Qed.


End Connected.

Lemma py_eq_int_value (v : pyval) (z n : Z) :
  int_value v = Some z -> py_eq_int v n = (z =? n).
Proof.
  destruct v as [|flag|k|q|s|items|items]; try discriminate; cbn.
  - now intros [= <-].
  - now intros [= <-].
Qed.

Lemma by_channel_value (motor : pyval) (z : Z) (m1 m2 : call) :
  int_value motor = Some z ->
  by_channel motor m1 m2 = if z =? 1 then m1 else m2.
Proof.
  intros H. unfold by_channel. now rewrite (py_eq_int_value _ _ _ H).
Qed.

(** X7.  On a connected wrapper [steer_setzero] issues exactly one
    set-encoder call with value 0, [SetEncM1] for channel 1 and [SetEncM2]
    for channel 2, at the identifier's address; it succeeds when the driver
    accepts and otherwise fails with a [DriverError] naming motor and
    address. *)
Theorem steer_setzero_resets_encoder (id : pyval) (address : Z)
    (motor : pyval) (inverted : bool) (rc : Roboclaw) (w : world) :
  check_id id = inr (address, motor, inverted) ->
  roboclaw (self w) = Some rc ->
  exists c res,
    steer_setzero id w = (res, after w [c]) /\
    (int_value motor = Some 1 -> c = SetEncM1 address 0) /\
    (int_value motor = Some 2 -> c = SetEncM2 address 0) /\
    (write_reply rc (issued w) c = true -> res = inr tt) /\
    (write_reply rc (issued w) c = false ->
     res = inl (DriverError (Format "Reset encoder on RoboClaw M{}@{}"
                                    [motor; PInt address]) None)).
Proof.
  intros Hid Hrc.
  rewrite (steer_setzero_run id address motor inverted rc w Hid Hrc).
  eexists; eexists. split; [reflexivity|].
  split; [|split; [|split]].
  - intros H. now rewrite (by_channel_value _ _ _ _ H).
  - intros H. now rewrite (by_channel_value _ _ _ _ H).
  - now intros ->.
  - now intros ->.
Qed.

Lemma steer_setzero_resets_encoder_witness :
  steer_setzero Sample.second_motor_inverted (Sample.connected Sample.obliging)
  = (inr tt, after (Sample.connected Sample.obliging) [SetEncM2 129 0]).
Proof.
  destruct (steer_setzero_resets_encoder Sample.second_motor_inverted 129
              (PInt 2) true Sample.obliging (Sample.connected Sample.obliging)
              eq_refl eq_refl) as (c & res & Hrun & _ & Hc & Hok & _).
  rewrite Hrun. rewrite (Hc eq_refl) in Hok |- *.
  now rewrite (Hok eq_refl).
Defined.

(** X8.  On a connected wrapper [version] issues exactly one
    [ReadVersion] at the identifier's address and depends on nothing else
    of the identifier: two validated identifiers with the same address give
    the same outcome.  A reply [(flag, v)] with a success flag yields [v]; a
    reply with the failure flag yields a [DriverError] with the address in
    its context and the raw reply. *)
Theorem version_reads_by_address (id id' : pyval) (address : Z)
    (motor motor' : pyval) (inverted inverted' : bool) (rc : Roboclaw)
    (w : world) :
  check_id id = inr (address, motor, inverted) ->
  check_id id' = inr (address, motor', inverted') ->
  roboclaw (self w) = Some rc ->
  version id w = version id' w /\
  snd (version id w) = after w [ReadVersion address] /\
  (forall status v,
     read_reply rc (issued w) (ReadVersion address) = [status; v] ->
     ~ failure_flag status ->
     fst (version id w) = inr v) /\
  (forall status rest,
     read_reply rc (issued w) (ReadVersion address) = status :: rest ->
     failure_flag status ->
     fst (version id w)
     = inl (DriverError (Format "RoboClaw ReadVersion @ {}" [PInt address])
                        (Some (status :: rest)))).
Proof.
  intros Hid Hid' Hrc.
  rewrite (version_run id address motor inverted rc w Hid Hrc).
  rewrite (version_run id' address motor' inverted' rc w Hid' Hrc).
  split; [reflexivity|]. split; [reflexivity|]. split.
  - intros status v -> Hok. cbn [fst]. now rewrite apiget_success.
  - intros status rest -> Hfail. cbn [fst]. now rewrite apiget_failure.
Qed.

Lemma version_reads_by_address_witness :
  version Sample.first_motor (Sample.connected Sample.obliging)
  = version (PList [PInt 128; PInt 2; PBool true])
      (Sample.connected Sample.obliging) /\
  fst (version Sample.first_motor (Sample.connected Sample.obliging))
  = inr (PInt 123).
Proof.
  destruct (version_reads_by_address Sample.first_motor
              (PList [PInt 128; PInt 2; PBool true]) 128 (PInt 1) (PInt 2)
              false true Sample.obliging (Sample.connected Sample.obliging)
              eq_refl eq_refl eq_refl) as (Hsame & _ & Hok & _).
  split; [exact Hsame|].
  apply (Hok (PInt 1) (PInt 123) eq_refl). discriminate.
Defined.



(** ** The inversion flag *)

(** X10.  The inversion flag has no influence on [version],
    [power_percent], [set_max_current], [set_velocity_pid],
    [set_position_pid], [steer_setzero], [input_voltage], [init_velocity] and
    [init_angle]: two validated identifiers that differ only in that flag
    give the same outcome in every state. *)
Theorem inversion_only_steers_velocity_and_angle (id id' : pyval)
    (address : Z) (motor : pyval) (inverted inverted' : bool) (w : world)
    (x : num) (vpid : velocity_pid) (ppid : position_pid) :
  check_id id = inr (address, motor, inverted) ->
  check_id id' = inr (address, motor, inverted') ->
  version id w = version id' w /\
  power_percent id x w = power_percent id' x w /\
  set_max_current id x w = set_max_current id' x w /\
  set_velocity_pid id vpid w = set_velocity_pid id' vpid w /\
  set_position_pid id ppid x w = set_position_pid id' ppid x w /\
  steer_setzero id w = steer_setzero id' w /\
  input_voltage id w = input_voltage id' w /\
  init_velocity id w = init_velocity id' w /\
  init_angle id w = init_angle id' w.
Proof.
  intros Hid Hid'.
  repeat match goal with |- _ /\ _ => split end.
  all: unfold version, power_percent, steer_setzero, input_voltage,
         init_velocity, init_angle;
       unfold set_max_current, set_velocity_pid, set_position_pid;
       unfold bind, lift; rewrite Hid, Hid'; reflexivity.
Qed.

Lemma inversion_only_steers_velocity_and_angle_witness :
  power_percent (PTuple [PInt 129; PInt 2; PBool false]) (NInt (-30))
    (Sample.connected Sample.obliging)
  = power_percent Sample.second_motor_inverted (NInt (-30))
      (Sample.connected Sample.obliging).
Proof.
  destruct (inversion_only_steers_velocity_and_angle
              (PTuple [PInt 129; PInt 2; PBool false])
              Sample.second_motor_inverted 129 (PInt 2) false true
              (Sample.connected Sample.obliging) (NInt (-30)) Sample.pid
              (a_position Sample.angle_cfg) eq_refl eq_refl)
    as (_ & H & _).
  exact H.
Defined.

(** ** Sign and size of the scaled commands *)

(** X11.  Commanding an inverted motor is commanding the same motor, not
    inverted, with the opposite value: for an accepted v, [velocity] on the
    inverted identifier equals [velocity] at -v on the plain one, and
    likewise [angle] for an angle within the hardstop.  Rounding to a float
    and [int()] are both symmetric about zero, which is what makes the two
    sides agree. *)
Theorem inverted_motor_mirrors_command (id id' : pyval) (address : Z)
    (motor : pyval) (rc : Roboclaw) (w : world) :
  check_id id = inr (address, motor, false) ->
  check_id id' = inr (address, motor, true) ->
  roboclaw (self w) = Some rc ->
  (forall vp v,
     velocityparams (self w) = Some vp ->
     Z.abs (py_int v) <= 100 ->
     velocity id' v w = velocity id (py_neg v) w) /\
  (forall ap d,
     angleparams (self w) = Some ap ->
     ~ (to_Q (hardstop_angle (a_hardstop ap)) == 0)%Q ->
     (Qabs (to_Q d) <= to_Q (hardstop_angle (a_hardstop ap)))%Q ->
     angle id' d w = angle id (py_neg d) w).
Proof.
  intros Hid Hid' Hrc. split.
  - intros vp v Hvp Hv.
    destruct (scaled_neg (v_maxVelocity vp) v (NInt 100))
      as (r & r' & Hr & Hr' & Hopp); [discriminate|].
    rewrite (velocity_run id' address motor true rc vp w Hid' Hrc Hvp
               v r Hv Hr).
    rewrite (velocity_run id address motor false rc vp w Hid Hrc Hvp
               (py_neg v) r')
      by (rewrite ?py_int_neg, ?Z.abs_opp; assumption).
    now rewrite Hopp.
  - intros ap d Hap Hnz Hd.
    destruct (scaled_neg (hardstop_count (a_hardstop ap)) d
                (hardstop_angle (a_hardstop ap)) Hnz)
      as (r & r' & Hr & Hr' & Hopp).
    assert (Hin : py_gt (py_abs d) (hardstop_angle (a_hardstop ap)) = false)
      by (apply py_gt_false; rewrite to_Q_abs; exact Hd).
    assert (Hin' : py_gt (py_abs (py_neg d)) (hardstop_angle (a_hardstop ap))
                   = false)
      by (apply py_gt_false; rewrite to_Q_abs, to_Q_neg, Qabs_opp; exact Hd).
    rewrite (angle_run id' address motor true rc ap w Hid' Hrc Hap d r Hin Hr).
    rewrite (angle_run id address motor false rc ap w Hid Hrc Hap
               (py_neg d) r' Hin' Hr').
    now rewrite Hopp.
Qed.

Lemma inverted_motor_mirrors_command_witness :
  velocity (PTuple [PInt 128; PInt 1; PBool true]) (NFloat (323 # 10))
    Sample.thousand
  = velocity Sample.first_motor (NFloat (- (323 # 10))) Sample.thousand /\
  angle (PTuple [PInt 128; PInt 1; PBool true]) (NInt 4)
    (Sample.connected Sample.obliging)
  = angle Sample.first_motor (NInt (-4)) (Sample.connected Sample.obliging).
Proof.
  split.
  - destruct (inverted_motor_mirrors_command Sample.first_motor
                (PTuple [PInt 128; PInt 1; PBool true]) 128 (PInt 1)
                Sample.obliging Sample.thousand
                eq_refl eq_refl eq_refl) as [Hv _].
    apply (Hv Sample.thousand_cfg (NFloat (323 # 10)) eq_refl).
    vm_compute. discriminate.
  - destruct (inverted_motor_mirrors_command Sample.first_motor
                (PTuple [PInt 128; PInt 1; PBool true]) 128 (PInt 1)
                Sample.obliging (Sample.connected Sample.obliging)
                eq_refl eq_refl eq_refl) as [_ Ha].
    apply (Ha Sample.angle_cfg (NInt 4) eq_refl).
    + vm_compute. discriminate.
    + vm_compute. discriminate.
Defined.

(** An integer scaled by n/h with |n| <= h does not grow. *)
Lemma quot_within (m n h : Z) :
  0 < h -> Z.abs n <= h -> Z.abs (Z.quot (m * n) h) <= Z.abs m.
Proof.
  intros Hh Hn.
  rewrite <- Z.quot_abs by lia. rewrite (Z.abs_eq h) by lia.
  apply Z.le_trans with (Z.quot (Z.abs m * h) h).
  - apply Z.quot_le_mono; [lia|].
    rewrite Z.abs_mul. apply Z.mul_le_mono_nonneg_l; lia.
  - rewrite Z.quot_mul by lia. lia.
Qed.

(** X12.  On integers the scaled command stays within the configured
    limit: for integers maxVelocity and |n| <= 100 the issued |qpps| is at
    most |maxVelocity|, and for integers count, hardstop angle H > 0 and
    |n| <= H the issued |position| is at most |count| (the products below
    2^53 in magnitude). *)
Theorem scaled_commands_within_limits (id : pyval) (address : Z)
    (motor : pyval) (inverted : bool) (rc : Roboclaw) (w : world) :
  check_id id = inr (address, motor, inverted) ->
  roboclaw (self w) = Some rc ->
  (forall vp M n,
     velocityparams (self w) = Some vp ->
     v_maxVelocity vp = NInt M ->
     Z.abs n <= 100 ->
     Z.abs (M * n) < 2 ^ 53 ->
     exists qpps res,
       velocity id (NInt n) w
       = (res, after w [by_channel motor
                          (SpeedAccelM1 address (v_acceleration vp) qpps)
                          (SpeedAccelM2 address (v_acceleration vp) qpps)]) /\
       Z.abs qpps <= Z.abs M) /\
  (forall ap C H n,
     angleparams (self w) = Some ap ->
     hardstop_count (a_hardstop ap) = NInt C ->
     hardstop_angle (a_hardstop ap) = NInt H ->
     0 < H ->
     Z.abs n <= H ->
     Z.abs (C * n) < 2 ^ 53 ->
     exists position res,
       angle id (NInt n) w
       = (res, after w [by_channel motor
                          (SpeedAccelDeccelPositionM1 address (a_accel ap)
                             (a_speed ap) (a_decel ap) position 1)
                          (SpeedAccelDeccelPositionM2 address (a_accel ap)
                             (a_speed ap) (a_decel ap) position 1)]) /\
       Z.abs position <= Z.abs C).
Proof.
  intros Hid Hrc. split.
  - intros vp M n Hvp EM Hn Hprod.
    destruct (scaled_ints M n 100 Hprod) as (r & Hr & Hval); [lia|].
    rewrite <- EM in Hr.
    rewrite (velocity_run id address motor inverted rc vp w Hid Hrc Hvp
               (NInt n) r Hn Hr).
    eexists; eexists. split; [reflexivity|].
    rewrite Hval.
    destruct inverted; rewrite ?Z.abs_opp; apply quot_within; lia.
  - intros ap C H n Hap EC EH HH Hn Hprod.
    destruct (scaled_ints C n H Hprod HH) as (r & Hr & Hval).
    rewrite <- EC, <- EH in Hr.
    assert (Hin : py_gt (py_abs (NInt n)) (hardstop_angle (a_hardstop ap))
                  = false)
      by (rewrite EH; cbn [py_abs py_gt]; apply Z.ltb_ge; exact Hn).
    rewrite (angle_run id address motor inverted rc ap w Hid Hrc Hap
               (NInt n) r Hin Hr).
    eexists; eexists. split; [reflexivity|].
    rewrite Hval.
    destruct inverted; rewrite ?Z.abs_opp; apply quot_within; lia.
Qed.

Lemma scaled_commands_within_limits_witness :
  exists qpps res,
    velocity Sample.second_motor_inverted (NInt 99)
      (Sample.connected Sample.obliging)
    = (res, after (Sample.connected Sample.obliging)
              [SpeedAccelM2 129 (NInt 2400) qpps]) /\
    Z.abs qpps <= 1234.
Proof.
  destruct (scaled_commands_within_limits Sample.second_motor_inverted 129
              (PInt 2) true Sample.obliging (Sample.connected Sample.obliging)
              eq_refl eq_refl) as [Hv _].
  destruct (Hv Sample.velocity_cfg 1234 99 eq_refl eq_refl)
    as (qpps & res & Hrun & Hbound).
  - vm_compute. discriminate.
  - reflexivity.
  - exists qpps, res. split; [exact Hrun | exact Hbound].
Defined.

(** ** Power levels *)

Lemma power_level_mono (p q : Z) :
  p <= q ->
  Qfloor (inject_Z 64 + inject_Z p * inject_Z 63 / inject_Z 100)
  <= Qfloor (inject_Z 64 + inject_Z q * inject_Z 63 / inject_Z 100).
Proof.
  intros Hpq.
  cbv beta iota delta [Qfloor Qplus Qdiv Qmult Qinv inject_Z Qnum Qden].
  apply Z.div_le_mono; lia.
Qed.



(** X14.  The drive level follows the percentage: for integers
    -100 <= p <= q <= 100 the level issued for p is at most the level issued
    for q; -100 gives 1, 0 gives 64 and 100 gives 127. *)
Theorem power_level_follows_percentage (id : pyval) (address : Z)
    (motor : pyval) (inverted : bool) (rc : Roboclaw) (w : world) (p q : Z) :
  check_id id = inr (address, motor, inverted) ->
  roboclaw (self w) = Some rc ->
  -100 <= p -> p <= q -> q <= 100 ->
  exists lp lq rp rq,
    power_percent id (NInt p) w
    = (rp, after w [by_channel motor (ForwardBackwardM1 address lp)
                                     (ForwardBackwardM2 address lp)]) /\
    power_percent id (NInt q) w
    = (rq, after w [by_channel motor (ForwardBackwardM1 address lq)
                                     (ForwardBackwardM2 address lq)]) /\
    lp <= lq /\
    (p = -100 -> lp = 1) /\ (p = 0 -> lp = 64) /\ (q = 100 -> lq = 127).
Proof.
  intros Hid Hrc Hlo Hpq Hhi.
  rewrite (power_percent_run id address motor inverted rc w Hid Hrc (NInt p))
    by (cbn [py_int]; lia).
  rewrite (power_percent_run id address motor inverted rc w Hid Hrc (NInt q))
    by (cbn [py_int]; lia).
  cbn [py_int]. do 4 eexists.
  split; [reflexivity|]. split; [reflexivity|].
  split; [now apply power_level_mono|].
  repeat split; intros ->; reflexivity.
Qed.

Lemma power_level_follows_percentage_witness :
  exists lp lq rp rq,
    power_percent Sample.first_motor (NInt (-100))
      (Sample.connected Sample.obliging)
    = (rp, after (Sample.connected Sample.obliging)
             [ForwardBackwardM1 128 lp]) /\
    power_percent Sample.first_motor (NInt 100)
      (Sample.connected Sample.obliging)
    = (rq, after (Sample.connected Sample.obliging)
             [ForwardBackwardM1 128 lq]) /\
    lp = 1 /\ lq = 127.
Proof.
  destruct (power_level_follows_percentage Sample.first_motor 128 (PInt 1)
              false Sample.obliging (Sample.connected Sample.obliging)
              (-100) 100 eq_refl eq_refl)
    as (lp & lq & rp & rq & Hp & Hq & _ & Hlow & _ & Hhigh); try lia.
  exists lp, lq, rp, rq.
  split; [exact Hp|]. split; [exact Hq|].
  split; [exact (Hlow eq_refl) | exact (Hhigh eq_refl)].
Defined.

(** ** Normal form of an identifier *)

(** X15.  The triple [check_id] returns is itself a valid identifier that
    validates to the same triple, and a list validates exactly as the tuple
    of the same elements. *)
Theorem check_id_normalizes (id : pyval) (t : motor_id) (items : list pyval) :
  (check_id id = inr t -> check_id (id_tuple t) = inr t) /\
  check_id (PList items) = check_id (PTuple items).
Proof.
  split; [|reflexivity].
  intros H. apply check_id_sound in H. apply check_id_complete.
  destruct t as [[address motor] inverted].
  destruct H as (_ & Hrange & Hmotor).
  cbn. repeat split; auto; lia.
Qed.

Lemma check_id_normalizes_witness :
  check_id (id_tuple (135, PBool true, false))
  = inr (135, PBool true, false).
Proof.
  exact (proj1 (check_id_normalizes (PList [PInt 135; PBool true; PBool false])
                  (135, PBool true, false) []) eq_refl).
Defined.

(** ** Calibrating again, and steering to the limit *)

Lemma init_velocity_accepted (id : pyval) (address : Z) (motor : pyval)
    (inverted : bool) (rc : Roboclaw) (vp : velocity_profile) (w : world) :
  check_id id = inr (address, motor, inverted) ->
  roboclaw (self w) = Some rc ->
  velocityparams (self w) = Some vp ->
  (forall log c, write_reply rc log c = true) ->
  let c1 := by_channel motor (SetM1MaxCurrent address (v_maxCurrent vp))
                             (SetM2MaxCurrent address (v_maxCurrent vp)) in
  let c2 := by_channel motor
              (SetM1VelocityPID address (vel_p (v_velocity vp))
                 (vel_i (v_velocity vp)) (vel_d (v_velocity vp))
                 (vel_qpps (v_velocity vp)))
              (SetM2VelocityPID address (vel_p (v_velocity vp))
                 (vel_i (v_velocity vp)) (vel_d (v_velocity vp))
                 (vel_qpps (v_velocity vp))) in
  init_velocity id w = (inr tt, after w [c1; c2]).
Proof.
  intros Hid Hrc Hvp Hyes c1 c2. unfold init_velocity.
  rewrite (bind_get_velocityparams w vp _ Hvp).
  rewrite (bind_run _ _ _ _ _
             (set_max_current_run id address motor inverted rc w Hid Hrc _)).
  fold c1. rewrite Hyes, apiset_true.
  rewrite (bind_get_velocityparams (after w [c1]) vp _ Hvp).
  destruct (set_velocity_pid_run id address motor inverted rc
              (after w [c1]) Hid Hrc (v_velocity vp)) as [context ->].
  fold c2. now rewrite Hyes, apiset_true, after_after.
Qed.

(** X16.  On a driver that accepts every write, [init_velocity] run twice
    in a row issues the same two calls twice, [max-current; velocity-PID;
    max-current; velocity-PID], and succeeds. *)
Theorem init_velocity_twice (id : pyval) (address : Z) (motor : pyval)
    (inverted : bool) (rc : Roboclaw) (vp : velocity_profile) (w : world) :
  check_id id = inr (address, motor, inverted) ->
  roboclaw (self w) = Some rc ->
  velocityparams (self w) = Some vp ->
  (forall log c, write_reply rc log c = true) ->
  let c1 := by_channel motor (SetM1MaxCurrent address (v_maxCurrent vp))
                             (SetM2MaxCurrent address (v_maxCurrent vp)) in
  let c2 := by_channel motor
              (SetM1VelocityPID address (vel_p (v_velocity vp))
                 (vel_i (v_velocity vp)) (vel_d (v_velocity vp))
                 (vel_qpps (v_velocity vp)))
              (SetM2VelocityPID address (vel_p (v_velocity vp))
                 (vel_i (v_velocity vp)) (vel_d (v_velocity vp))
                 (vel_qpps (v_velocity vp))) in
  (init_velocity id ;; init_velocity id) w
  = (inr tt, after w [c1; c2; c1; c2]).
Proof.
  intros Hid Hrc Hvp Hyes c1 c2.
  rewrite (bind_run _ _ _ _ _
             (init_velocity_accepted id address motor inverted rc vp w
                Hid Hrc Hvp Hyes)).
  rewrite (init_velocity_accepted id address motor inverted rc vp
             (after w _) Hid Hrc Hvp Hyes).
  now rewrite after_after.
Qed.

Lemma init_velocity_twice_witness :
  (init_velocity Sample.first_motor ;; init_velocity Sample.first_motor)
    (Sample.connected Sample.obliging)
  = (inr tt,
     after (Sample.connected Sample.obliging)
       [SetM1MaxCurrent 128 (NInt 300);
        SetM1VelocityPID 128 (NInt 3000) (NInt 500) (NInt 0) (NInt 1800);
        SetM1MaxCurrent 128 (NInt 300);
        SetM1VelocityPID 128 (NInt 3000) (NInt 500) (NInt 0) (NInt 1800)]).
Proof.
  exact (init_velocity_twice Sample.first_motor 128 (PInt 1) false
           Sample.obliging Sample.velocity_cfg
           (Sample.connected Sample.obliging) eq_refl eq_refl eq_refl
           (fun _ _ => eq_refl)).
Defined.

(** X17.  With an integer hardstop count below 2^53 in magnitude and a
    positive integer hardstop angle, the angle [maxangle] returns is
    accepted by [angle] and commands exactly the hardstop count (negated for
    an inverted identifier), while one degree more is refused with
    [OutOfRange] and issues nothing.  (A larger count is not a float: with
    count 2^53 + 1 the command is 2^53, see
    [maxangle_beyond_float_precision].) *)
Theorem maxangle_is_the_last_accepted_angle (id : pyval) (address : Z)
    (motor : pyval) (inverted : bool) (rc : Roboclaw) (ap : angle_profile)
    (w : world) (count h : Z) :
  check_id id = inr (address, motor, inverted) ->
  roboclaw (self w) = Some rc ->
  angleparams (self w) = Some ap ->
  hardstop_count (a_hardstop ap) = NInt count ->
  hardstop_angle (a_hardstop ap) = NInt h ->
  0 < h ->
  Z.abs count < 2 ^ 53 ->
  let position := if inverted then - count else count in
  let c :=
    by_channel motor
      (SpeedAccelDeccelPositionM1 address (a_accel ap) (a_speed ap)
         (a_decel ap) position 1)
      (SpeedAccelDeccelPositionM2 address (a_accel ap) (a_speed ap)
         (a_decel ap) position 1) in
  (exists res,
     (limit <- maxangle id ;; angle id limit) w = (res, after w [c]) /\
     write_outcome rc w c res) /\
  (exists msg,
     (limit <- maxangle id ;; angle id (py_add limit (NInt 1))) w
     = (inl (OutOfRange msg), w)).
Proof.
  intros Hid Hrc Hap Hcount Hangle Hh Hsmall position c.
  assert (Hmax : maxangle id w = (inr (hardstop_angle (a_hardstop ap)), w)).
  { unfold maxangle. now rewrite (bind_get_angleparams w ap _ Hap). }
  rewrite !(bind_run _ _ _ _ _ Hmax).
  split.
  - assert (Hin : py_gt (py_abs (hardstop_angle (a_hardstop ap)))
                        (hardstop_angle (a_hardstop ap)) = false)
      by (rewrite Hangle; cbn [py_abs py_gt]; apply Z.ltb_ge; lia).
    assert (Hr : py_truediv (py_mul (hardstop_count (a_hardstop ap))
                               (hardstop_angle (a_hardstop ap)))
                            (hardstop_angle (a_hardstop ap))
                 = inr (NFloat (inject_Z (count * h) / inject_Z h))).
    { rewrite Hcount, Hangle. cbn [py_mul]. rewrite py_truediv_nonzero.
      - reflexivity.
      - cbn [to_Q]. intros E. unfold Qeq in E. cbn in E. lia. }
    rewrite (angle_run id address motor inverted rc ap w Hid Hrc Hap _ _
               Hin Hr).
    assert (Hval : py_int (NFloat (inject_Z (count * h) / inject_Z h))
                   = count).
    { cbn [py_int].
      rewrite (binary64_comp _ (inject_Z count)).
      - rewrite (Qtrunc_comp _ _ (binary64_int count Hsmall)).
        apply Qtrunc_Z.
      - rewrite inject_Z_mult. field.
        intros E. unfold Qeq in E. cbn in E. lia. }
    rewrite Hval. fold position. fold c.
    eexists; split; [reflexivity|]. apply apiset_outcome.
  - eexists.
    apply (angle_rejected id address motor inverted rc ap w Hid Hrc Hap).
    rewrite Hangle. apply past_hardstop. intros q E. discriminate E.
Qed.

Lemma maxangle_is_the_last_accepted_angle_witness :
  exists res,
    (limit <- maxangle Sample.second_motor_inverted ;;
     angle Sample.second_motor_inverted limit)
      (Sample.connected Sample.obliging)
    = (res, after (Sample.connected Sample.obliging)
              [SpeedAccelDeccelPositionM2 129 (NInt 600) (NInt 900) (NInt 700)
                 (-1000) 1]).
Proof.
  destruct (maxangle_is_the_last_accepted_angle Sample.second_motor_inverted
              129 (PInt 2) true Sample.obliging Sample.angle_cfg
              (Sample.connected Sample.obliging) 1000 45
              eq_refl eq_refl eq_refl eq_refl eq_refl eq_refl eq_refl)
    as [(res & Hrun & _) _].
  exists res. exact Hrun.
Defined.

(** Beyond 2^53 the hardstop count is not a float any more: with a count of
    2^53 + 1 for one degree, steering to the hardstop commands 2^53. *)
Lemma maxangle_beyond_float_precision :
  let count := 2 ^ 53 + 1 in
  let w :=
    {| self := {| roboclaw := Some Sample.obliging;
                  velocityparams := Some Sample.velocity_cfg;
                  angleparams :=
                    Some {| a_maxCurrent := NInt 200;
                            a_velocity := Sample.pid;
                            a_position := a_position Sample.angle_cfg;
                            a_hardstop := {| hardstop_count := NInt count;
                                             hardstop_angle := NInt 1 |};
                            a_accel := NInt 600; a_speed := NInt 900;
                            a_decel := NInt 700 |} |};
       issued := [] |} in
  (limit <- maxangle Sample.first_motor ;; angle Sample.first_motor limit) w
  = (inr tt,
     after w [SpeedAccelDeccelPositionM1 128 (NInt 600) (NInt 900) (NInt 700)
                (2 ^ 53) 1]) /\
  2 ^ 53 <> count.
Proof. split; [vm_compute; reflexivity | discriminate]. Qed.

(** ** Order of the scaled commands *)

(** X18.  On an identifier that is not inverted and with a non-negative
    integer maxVelocity (hardstop count), a larger accepted integer
    percentage (angle) never commands a smaller qpps (position); the
    products are below 2^53 in magnitude. *)
Theorem larger_request_never_commands_less (id : pyval) (address : Z)
    (motor : pyval) (rc : Roboclaw) (w : world) :
  check_id id = inr (address, motor, false) ->
  roboclaw (self w) = Some rc ->
  (forall vp M n n',
     velocityparams (self w) = Some vp ->
     v_maxVelocity vp = NInt M ->
     0 <= M ->
     Z.abs n <= 100 -> Z.abs n' <= 100 ->
     Z.abs (M * n) < 2 ^ 53 -> Z.abs (M * n') < 2 ^ 53 ->
     n <= n' ->
     exists q q' r r',
       velocity id (NInt n) w
       = (r, after w [by_channel motor
                        (SpeedAccelM1 address (v_acceleration vp) q)
                        (SpeedAccelM2 address (v_acceleration vp) q)]) /\
       velocity id (NInt n') w
       = (r', after w [by_channel motor
                         (SpeedAccelM1 address (v_acceleration vp) q')
                         (SpeedAccelM2 address (v_acceleration vp) q')]) /\
       q <= q') /\
  (forall ap C H n n',
     angleparams (self w) = Some ap ->
     hardstop_count (a_hardstop ap) = NInt C ->
     hardstop_angle (a_hardstop ap) = NInt H ->
     0 <= C -> 0 < H ->
     Z.abs n <= H -> Z.abs n' <= H ->
     Z.abs (C * n) < 2 ^ 53 -> Z.abs (C * n') < 2 ^ 53 ->
     n <= n' ->
     exists p p' r r',
       angle id (NInt n) w
       = (r, after w [by_channel motor
                        (SpeedAccelDeccelPositionM1 address (a_accel ap)
                           (a_speed ap) (a_decel ap) p 1)
                        (SpeedAccelDeccelPositionM2 address (a_accel ap)
                           (a_speed ap) (a_decel ap) p 1)]) /\
       angle id (NInt n') w
       = (r', after w [by_channel motor
                         (SpeedAccelDeccelPositionM1 address (a_accel ap)
                            (a_speed ap) (a_decel ap) p' 1)
                         (SpeedAccelDeccelPositionM2 address (a_accel ap)
                            (a_speed ap) (a_decel ap) p' 1)]) /\
       p <= p').
Proof.
  intros Hid Hrc. split.
  - intros vp M n n' Hvp EM HM Hn Hn' Hprod Hprod' Hle.
    destruct (scaled_ints M n 100 Hprod) as (r & Hr & Hval); [lia|].
    destruct (scaled_ints M n' 100 Hprod') as (r' & Hr' & Hval'); [lia|].
    rewrite <- EM in Hr, Hr'.
    rewrite (velocity_run id address motor false rc vp w Hid Hrc Hvp
               (NInt n) r Hn Hr).
    rewrite (velocity_run id address motor false rc vp w Hid Hrc Hvp
               (NInt n') r' Hn' Hr').
    do 4 eexists. split; [reflexivity|]. split; [reflexivity|].
    rewrite Hval, Hval'. apply Z.quot_le_mono; [lia|].
    now apply Z.mul_le_mono_nonneg_l.
  - intros ap C H n n' Hap EC EH HC HH Hn Hn' Hprod Hprod' Hle.
    destruct (scaled_ints C n H Hprod HH) as (r & Hr & Hval).
    destruct (scaled_ints C n' H Hprod' HH) as (r' & Hr' & Hval').
    rewrite <- EC, <- EH in Hr, Hr'.
    assert (Hin : forall k, Z.abs k <= H ->
                    py_gt (py_abs (NInt k)) (hardstop_angle (a_hardstop ap))
                    = false)
      by (intros k Hk; rewrite EH; cbn [py_abs py_gt]; now apply Z.ltb_ge).
    rewrite (angle_run id address motor false rc ap w Hid Hrc Hap
               (NInt n) r (Hin n Hn) Hr).
    rewrite (angle_run id address motor false rc ap w Hid Hrc Hap
               (NInt n') r' (Hin n' Hn') Hr').
    do 4 eexists. split; [reflexivity|]. split; [reflexivity|].
    rewrite Hval, Hval'. apply Z.quot_le_mono; [lia|].
    now apply Z.mul_le_mono_nonneg_l.
Qed.

Lemma larger_request_never_commands_less_witness :
  exists q q' r r',
    velocity Sample.first_motor (NInt (-3)) (Sample.connected Sample.obliging)
    = (r, after (Sample.connected Sample.obliging)
            [SpeedAccelM1 128 (NInt 2400) q]) /\
    velocity Sample.first_motor (NInt 2) (Sample.connected Sample.obliging)
    = (r', after (Sample.connected Sample.obliging)
             [SpeedAccelM1 128 (NInt 2400) q']) /\
    q <= q'.
Proof.
  destruct (larger_request_never_commands_less Sample.first_motor 128 (PInt 1)
              Sample.obliging (Sample.connected Sample.obliging)
              eq_refl eq_refl) as [Hv _].
  apply (Hv Sample.velocity_cfg 1234 (-3) 2 eq_refl eq_refl);
    try reflexivity; vm_compute; discriminate.
Defined.

(** ** Connecting, then calibrating *)

Lemma init_angle_accepted (id : pyval) (address : Z) (motor : pyval)
    (inverted : bool) (rc : Roboclaw) (ap : angle_profile) (w : world) :
  check_id id = inr (address, motor, inverted) ->
  roboclaw (self w) = Some rc ->
  angleparams (self w) = Some ap ->
  (forall log c, write_reply rc log c = true) ->
  let limit := hardstop_count (a_hardstop ap) in
  let c1 := by_channel motor (SetM1MaxCurrent address (a_maxCurrent ap))
                             (SetM2MaxCurrent address (a_maxCurrent ap)) in
  let c2 := by_channel motor
              (SetM1VelocityPID address (vel_p (a_velocity ap))
                 (vel_i (a_velocity ap)) (vel_d (a_velocity ap))
                 (vel_qpps (a_velocity ap)))
              (SetM2VelocityPID address (vel_p (a_velocity ap))
                 (vel_i (a_velocity ap)) (vel_d (a_velocity ap))
                 (vel_qpps (a_velocity ap))) in
  let c3 := by_channel motor
              (SetM1PositionPID address (pos_p (a_position ap))
                 (pos_i (a_position ap)) (pos_d (a_position ap))
                 (pos_maxi (a_position ap)) (pos_deadzone (a_position ap))
                 (py_neg limit) limit)
              (SetM2PositionPID address (pos_p (a_position ap))
                 (pos_i (a_position ap)) (pos_d (a_position ap))
                 (pos_maxi (a_position ap)) (pos_deadzone (a_position ap))
                 (py_neg limit) limit) in
  init_angle id w = (inr tt, after w [c1; c2; c3]).
Proof.
  intros Hid Hrc Hap Hyes limit c1 c2 c3. subst limit. unfold init_angle.
  rewrite (bind_get_angleparams w ap _ Hap).
  rewrite (bind_run _ _ _ _ _
             (set_max_current_run id address motor inverted rc w Hid Hrc _)).
  fold c1. rewrite Hyes, apiset_true.
  destruct (set_velocity_pid_run id address motor inverted rc
              (after w [c1]) Hid Hrc (a_velocity ap)) as [context2 Hstep2].
  fold c2 in Hstep2.
  rewrite (bind_run _ _ _ _ _ Hstep2), Hyes, apiset_true. cbv beta iota.
  destruct (set_position_pid_run id address motor inverted rc
              (after (after w [c1]) [c2]) Hid Hrc (a_position ap)
              (hardstop_count (a_hardstop ap))) as [context3 ->].
  fold c3. now rewrite Hyes, apiset_true, !after_after.
Qed.

(** X19.  From any state, [connect] with port "TEST" followed by
    [init_velocity] (or [init_angle]) on a validated identifier succeeds,
    provided the stub accepts every write: the two (three) calibration calls
    carry the values of the configuration just loaded. *)
Theorem connect_then_calibrate (env : collaborators) (id : pyval)
    (address : Z) (motor : pyval) (inverted : bool) (w : world) :
  port (cfg_connect (configuration_load env)) = "TEST" ->
  (forall log c, write_reply (Roboclaw_stub env) log c = true) ->
  check_id id = inr (address, motor, inverted) ->
  let vp := cfg_velocity (configuration_load env) in
  let ap := cfg_angle (configuration_load env) in
  let limit := hardstop_count (a_hardstop ap) in
  let ready := loaded env (Some (Roboclaw_stub env)) (issued w) in
  (connect env ;; init_velocity id) w
  = (inr tt,
     after ready
       [by_channel motor (SetM1MaxCurrent address (v_maxCurrent vp))
                         (SetM2MaxCurrent address (v_maxCurrent vp));
        by_channel motor
          (SetM1VelocityPID address (vel_p (v_velocity vp))
             (vel_i (v_velocity vp)) (vel_d (v_velocity vp))
             (vel_qpps (v_velocity vp)))
          (SetM2VelocityPID address (vel_p (v_velocity vp))
             (vel_i (v_velocity vp)) (vel_d (v_velocity vp))
             (vel_qpps (v_velocity vp)))]) /\
  (connect env ;; init_angle id) w
  = (inr tt,
     after ready
       [by_channel motor (SetM1MaxCurrent address (a_maxCurrent ap))
                         (SetM2MaxCurrent address (a_maxCurrent ap));
        by_channel motor
          (SetM1VelocityPID address (vel_p (a_velocity ap))
             (vel_i (a_velocity ap)) (vel_d (a_velocity ap))
             (vel_qpps (a_velocity ap)))
          (SetM2VelocityPID address (vel_p (a_velocity ap))
             (vel_i (a_velocity ap)) (vel_d (a_velocity ap))
             (vel_qpps (a_velocity ap)));
        by_channel motor
          (SetM1PositionPID address (pos_p (a_position ap))
             (pos_i (a_position ap)) (pos_d (a_position ap))
             (pos_maxi (a_position ap)) (pos_deadzone (a_position ap))
             (py_neg limit) limit)
          (SetM2PositionPID address (pos_p (a_position ap))
             (pos_i (a_position ap)) (pos_d (a_position ap))
             (pos_maxi (a_position ap)) (pos_deadzone (a_position ap))
             (py_neg limit) limit)]).
Proof.
  intros Hport Hyes Hid vp ap limit ready.
  assert (Hconnect : connect env w = (inr tt, ready)).
  { unfold connect, bind, set_velocityparams, set_angleparams.
    rewrite Hport. reflexivity. }
  rewrite !(bind_run _ _ _ _ _ Hconnect). split.
  - apply (init_velocity_accepted id address motor inverted (Roboclaw_stub env)
             vp ready Hid eq_refl eq_refl Hyes).
  - apply (init_angle_accepted id address motor inverted (Roboclaw_stub env)
             ap ready Hid eq_refl eq_refl Hyes).
Qed.

Lemma connect_then_calibrate_witness :
  (connect {| configuration_load := Sample.config "TEST";
              Roboclaw_stub := Sample.obliging;
              Roboclaw_new := fun _ _ _ _ => Sample.refusing |} ;;
   init_angle Sample.first_motor) Sample.fresh
  = (inr tt,
     after (Sample.connected Sample.obliging)
       [SetM1MaxCurrent 128 (NInt 200);
        SetM1VelocityPID 128 (NInt 3000) (NInt 500) (NInt 0) (NInt 1800);
        SetM1PositionPID 128 (NInt 2000) (NInt 4) (NInt 100) (NInt 50)
          (NInt 5) (NInt (-1000)) (NInt 1000)]).
Proof.
  exact (proj2 (connect_then_calibrate
                  {| configuration_load := Sample.config "TEST";
                     Roboclaw_stub := Sample.obliging;
                     Roboclaw_new := fun _ _ _ _ => Sample.refusing |}
                  Sample.first_motor 128 (PInt 1) false Sample.fresh
                  eq_refl (fun _ _ => eq_refl) eq_refl)).
Defined.
